(** * i18nator: the catalog store, the translation-response decoder and the
    synchronization commands of [main.go], embedded in Rocq.

    - Go strings are byte sequences: they are modelled by [string], a list of
      8-bit [ascii]; [byte_val] gives the value of a byte.
    - Go maps [map[string]string] are modelled by stdpp's [gmap string string];
      the order in which [range] enumerates a map is an explicit argument
      ([ranged]) of the definitions that range over one.
    - The process is a state transformer over a [world]: the files of the
      storage directory with their permissions, the outcome of the system
      calls, the replies of the translation service, the package variable
      [basePath] and the lines printed so far.
    - The library functions the program calls ([unicode/utf8],
      [encoding/json] on [map[string]string], [strings.TrimSpace],
      [sort.Strings], [path/filepath], [os.ReadFile], [os.WriteFile]) are
      modelled by executable definitions that follow their documented
      behaviour; cobra is modelled by what [rootCmd.Execute] makes of the
      command line ([invocation]).

    The definitions come first, the lemmas and theorems after them. *)

From Stdlib Require Import NArith ZArith Lia Ascii String List Bool DecimalString.
From stdpp Require Import base option list sorting gmap sets strings.

Local Open Scope N_scope.

(** ** Byte strings *)

Definition byte_val (c : ascii) : N := N_of_ascii c.
Definition byte_of (n : N) : ascii := ascii_of_N n.

Fixpoint sdrop (n : nat) (s : string) : string :=
  match n, s with
  | O, _ => s
  | S n', String _ s' => sdrop n' s'
  | S _, EmptyString => EmptyString
  end.

Fixpoint stake (n : nat) (s : string) : string :=
  match n, s with
  | O, _ => EmptyString
  | S n', String c s' => String c (stake n' s')
  | S _, EmptyString => EmptyString
  end.

Definition slen (s : string) : nat := String.length s.

(** ** unicode/utf8 *)

Module Utf8.

Definition RuneError : N := 0xFFFD.
Definition RuneSelf : N := 0x80.
Definition MaxRune : N := 0x10FFFF.
Definition surrogateMin : N := 0xD800.
Definition surrogateMax : N := 0xDFFF.

(** The table [first] of the package, with the accept range of the second
    byte: ASCII, an invalid lead byte, or the lead byte of a sequence of
    [sz] bytes whose second byte lies in [lo, hi]. *)
Inductive lead := LAscii | LInvalid | LMulti (sz : nat) (lo hi : N).

Definition first (b : N) : lead :=
  if b <? 0x80 then LAscii
  else if b <? 0xC2 then LInvalid
  else if b <? 0xE0 then LMulti 2 0x80 0xBF
  else if b =? 0xE0 then LMulti 3 0xA0 0xBF
  else if b =? 0xED then LMulti 3 0x80 0x9F
  else if b <? 0xF0 then LMulti 3 0x80 0xBF
  else if b =? 0xF0 then LMulti 4 0x90 0xBF
  else if b <? 0xF4 then LMulti 4 0x80 0xBF
  else if b =? 0xF4 then LMulti 4 0x80 0x8F
  else LInvalid.

Definition mask2 : N := 0x1F.
Definition mask3 : N := 0x0F.
Definition mask4 : N := 0x07.
Definition maskx : N := 0x3F.
Definition locb : N := 0x80.
Definition hicb : N := 0xBF.
Definition t2 : N := 0xC0.
Definition t3 : N := 0xE0.
Definition t4 : N := 0xF0.
Definition tx : N := 0x80.

Definition outside (lo hi b : N) : bool := (b <? lo) || (hi <? b).

(** [utf8.DecodeRuneInString]: the first rune of [s] and its width in
    bytes; [(RuneError, 1)] for an invalid or truncated encoding. *)
Definition DecodeRune (s : string) : N * nat :=
  match s with
  | EmptyString => (RuneError, 0%nat)
  | String c0 r1 =>
    let s0 := byte_val c0 in
    match first s0 with
    | LAscii => (s0, 1%nat)
    | LInvalid => (RuneError, 1%nat)
    | LMulti sz lo hi =>
      if (slen s <? sz)%nat then (RuneError, 1%nat) else
      match r1 with
      | EmptyString => (RuneError, 1%nat)
      | String c1 r2 =>
        let s1 := byte_val c1 in
        if outside lo hi s1 then (RuneError, 1%nat) else
        if (sz <=? 2)%nat then
          (N.lor (N.shiftl (N.land s0 mask2) 6) (N.land s1 maskx), 2%nat)
        else
        match r2 with
        | EmptyString => (RuneError, 1%nat)
        | String c2 r3 =>
          let s2 := byte_val c2 in
          if outside locb hicb s2 then (RuneError, 1%nat) else
          if (sz <=? 3)%nat then
            (N.lor (N.lor (N.shiftl (N.land s0 mask3) 12)
                          (N.shiftl (N.land s1 maskx) 6))
                   (N.land s2 maskx), 3%nat)
          else
          match r3 with
          | EmptyString => (RuneError, 1%nat)
          | String c3 _ =>
            let s3 := byte_val c3 in
            if outside locb hicb s3 then (RuneError, 1%nat) else
            (N.lor (N.lor (N.lor (N.shiftl (N.land s0 mask4) 18)
                                 (N.shiftl (N.land s1 maskx) 12))
                          (N.shiftl (N.land s2 maskx) 6))
                   (N.land s3 maskx), 4%nat)
          end
        end
      end
    end
  end.

Definition str3 (a b c : N) : string :=
  String (byte_of a) (String (byte_of b) (String (byte_of c) EmptyString)).

(** [utf8.AppendRune]: the UTF-8 encoding of rune [r]; surrogates and
    values above [MaxRune] are encoded as [RuneError]. *)
Definition EncodeRune (r : N) : string :=
  if r <=? 0x7F then String (byte_of r) EmptyString
  else if r <=? 0x7FF then
    String (byte_of (N.lor t2 (N.shiftr r 6)))
      (String (byte_of (N.lor tx (N.land r maskx))) EmptyString)
  else if (MaxRune <? r) || ((surrogateMin <=? r) && (r <=? surrogateMax)) then
    str3 (N.lor t3 (N.shiftr RuneError 12))
         (N.lor tx (N.land (N.shiftr RuneError 6) maskx))
         (N.lor tx (N.land RuneError maskx))
  else if r <=? 0xFFFF then
    str3 (N.lor t3 (N.shiftr r 12))
         (N.lor tx (N.land (N.shiftr r 6) maskx))
         (N.lor tx (N.land r maskx))
  else
    String (byte_of (N.lor t4 (N.shiftr r 18)))
      (str3 (N.lor tx (N.land (N.shiftr r 12) maskx))
            (N.lor tx (N.land (N.shiftr r 6) maskx))
            (N.lor tx (N.land r maskx))).

(** Is the decoding result the one of an invalid byte? *)
Definition is_bad (d : N * nat) : bool :=
  (fst d =? RuneError) && (snd d =? 1)%nat.

(** [[]rune(s)]: the runes of [s], an invalid byte giving [RuneError].
    [skip] counts the bytes of the current rune still to be passed. *)
Fixpoint runes_from (skip : nat) (s : string) : list N :=
  match s with
  | EmptyString => []
  | String _ rest =>
    match skip with
    | S k => runes_from k rest
    | O => let d := DecodeRune s in
           fst d :: runes_from (Nat.pred (snd d)) rest
    end
  end.
Definition runes (s : string) : list N := runes_from 0 s.

(** [string([]rune(s))]: [s] coerced to valid UTF-8, each invalid byte
    replaced by the encoding of U+FFFD. *)
Definition coerce (s : string) : string :=
  foldr (fun r acc => String.append (EncodeRune r) acc) EmptyString (runes s).

(** [utf8.ValidString] *)
Fixpoint valid_from (skip : nat) (s : string) : bool :=
  match s with
  | EmptyString => true
  | String _ rest =>
    match skip with
    | S k => valid_from k rest
    | O => let d := DecodeRune s in
           negb (is_bad d) && valid_from (Nat.pred (snd d)) rest
    end
  end.
Definition ValidString (s : string) : bool := valid_from 0 s.

End Utf8.

Arguments Utf8.DecodeRune : simpl never.
Arguments Utf8.EncodeRune : simpl never.


(** ** Characters used by the JSON codec *)

Definition dquote : ascii := "034"%char.
Definition backslash : ascii := "092"%char.
Definition newline : ascii := "010"%char.
Definition nl : string := String newline EmptyString.

(** ** encoding/json, as used on [map[string]string] *)

Module Json.

Definition hex : string := "0123456789abcdef".

Definition hex_digit (n : N) : ascii :=
  match String.get (N.to_nat n) hex with
  | Some c => c
  | None => "0"%char
  end.

(** [htmlSafeSet]: the ASCII bytes [appendString] copies unescaped when HTML
    escaping is on (the default of [json.Marshal] and [json.MarshalIndent]). *)
Definition htmlSafe (b : N) : bool :=
  (0x20 <=? b) && negb (b =? 0x22) && negb (b =? 0x5C)
  && negb (b =? 0x3C) && negb (b =? 0x3E) && negb (b =? 0x26).

(** The escape sequence [appendString] writes for an ASCII byte. *)
Definition escape_ascii (c : ascii) : string :=
  let b := byte_val c in
  if htmlSafe b then String c EmptyString
  else if (b =? 0x5C) || (b =? 0x22) then String backslash (String c EmptyString)
  else if b =? 0x08 then String backslash "b"
  else if b =? 0x0C then String backslash "f"
  else if b =? 0x0A then String backslash "n"
  else if b =? 0x0D then String backslash "r"
  else if b =? 0x09 then String backslash "t"
  else String backslash
         (String "u" (String "0" (String "0"
            (String (hex_digit (N.shiftr b 4))
               (String (hex_digit (N.land b 0xF)) EmptyString))))).

(** The loop of [appendString]: [skip] counts the bytes of the current
    multi-byte rune that were already copied. *)
Fixpoint appendString_from (skip : nat) (s : string) : string :=
  match s with
  | EmptyString => EmptyString
  | String c rest =>
    match skip with
    | S k => appendString_from k rest
    | O =>
      if byte_val c <? Utf8.RuneSelf then
        escape_ascii c +:+ appendString_from 0 rest
      else
        let d := Utf8.DecodeRune s in
        if Utf8.is_bad d then
          String backslash "ufffd" +:+ appendString_from 0 rest
        else if (fst d =? 0x2028) || (fst d =? 0x2029) then
          String backslash "u202"
            +:+ String (hex_digit (N.land (fst d) 0xF))
                  (appendString_from (Nat.pred (snd d)) rest)
        else
          stake (snd d) s +:+ appendString_from (Nat.pred (snd d)) rest
    end
  end.

(** [appendString]: a Go string as a JSON string literal. *)
Definition appendString (s : string) : string :=
  String dquote (appendString_from 0 s +:+ String dquote EmptyString).

(** Map keys are written in ascending byte order. *)
Definition sorted_keys (m : gmap string string) : list string :=
  merge_sort String.le (elements (dom m)).

Definition member_line (m : gmap string string) (k : string) : string :=
  "  " +:+ appendString k +:+ ": " +:+ appendString (default EmptyString (m !! k)).

(** [json.MarshalIndent(m, "", "  ")] for [m : map[string]string]; it
    cannot fail on this type. *)
Definition MarshalIndent (m : gmap string string) : string :=
  match sorted_keys m with
  | [] => "{}"
  | ks => "{" +:+ nl
          +:+ String.concat ("," +:+ nl) (map (member_line m) ks)
          +:+ nl +:+ "}"
  end.

(** *** Decoding *)

Definition hexval (c : ascii) : option N :=
  let b := byte_val c in
  if (0x30 <=? b) && (b <=? 0x39) then Some (b - 0x30)
  else if (0x61 <=? b) && (b <=? 0x66) then Some (b - 0x61 + 10)
  else if (0x41 <=? b) && (b <=? 0x46) then Some (b - 0x41 + 10)
  else None.

(** [getu4]: the rune of a [\uXXXX] escape at the start of [s]; [None] is
    the [-1] of the Go function. *)
Definition getu4 (s : string) : option N :=
  match s with
  | String b (String u (String h1 (String h2 (String h3 (String h4 _))))) =>
    if (byte_val b =? 0x5C) && (byte_val u =? 0x75) then
      match hexval h1, hexval h2, hexval h3, hexval h4 with
      | Some a1, Some a2, Some a3, Some a4 =>
        Some (((a1 * 16 + a2) * 16 + a3) * 16 + a4)
      | _, _, _, _ => None
      end
    else None
  | _ => None
  end.

(** [utf16.IsSurrogate] and [utf16.DecodeRune] *)
Definition IsSurrogate (r : N) : bool := (0xD800 <=? r) && (r <? 0xE000).

Definition utf16_DecodeRune (r1 : N) (r2 : option N) : N :=
  match r2 with
  | Some r2 =>
    if (0xD800 <=? r1) && (r1 <? 0xDC00) && (0xDC00 <=? r2) && (r2 <? 0xE000)
    then N.lor (N.shiftl (r1 - 0xD800) 10) (r2 - 0xDC00) + 0x10000
    else Utf8.RuneError
  | None => Utf8.RuneError
  end.

(** One step of [unquoteBytes] at the head of [s], inside a string literal:
    the literal closes, the input is rejected, or [bytes] are produced and
    [skip] further bytes of the input belong to the same step. *)
Inductive step := Close | Fail | Emit (bytes : string) (skip : nat).

Definition one (n : N) : string := String (byte_of n) EmptyString.

Definition string_step (s : string) : step :=
  match s with
  | EmptyString => Fail
  | String c rest =>
    let b := byte_val c in
    if b =? 0x5C then
      match rest with
      | EmptyString => Fail
      | String e _ =>
        let eb := byte_val e in
        if (eb =? 0x22) || (eb =? 0x5C) || (eb =? 0x2F) then Emit (String e EmptyString) 1
        else if eb =? 0x62 then Emit (one 0x08) 1
        else if eb =? 0x66 then Emit (one 0x0C) 1
        else if eb =? 0x6E then Emit (one 0x0A) 1
        else if eb =? 0x72 then Emit (one 0x0D) 1
        else if eb =? 0x74 then Emit (one 0x09) 1
        else if eb =? 0x75 then
          match getu4 s with
          | None => Fail
          | Some rr =>
            if IsSurrogate rr then
              let dec := utf16_DecodeRune rr (getu4 (sdrop 6 s)) in
              if dec =? Utf8.RuneError
              then Emit (Utf8.EncodeRune Utf8.RuneError) 5
              else Emit (Utf8.EncodeRune dec) 11
            else Emit (Utf8.EncodeRune rr) 5
          end
        else Fail
      end
    else if b =? 0x22 then Close
    else if b <? 0x20 then Fail
    else if b <? Utf8.RuneSelf then Emit (String c EmptyString) 0
    else
      let d := Utf8.DecodeRune s in
      Emit (Utf8.EncodeRune (fst d)) (Nat.pred (snd d))
  end.

(** The tokens of a document that can decode into [map[string]string]
    without error. *)
Inductive token :=
| TLBrace | TRBrace | TColon | TComma | TString (s : string) | TNull.

Definition isSpace (b : N) : bool :=
  (b =? 0x20) || (b =? 0x09) || (b =? 0x0D) || (b =? 0x0A).

(** The scanner: [mode] is [Some acc] inside a string literal whose decoded
    bytes so far are [acc]; [skip] bytes of the input are passed over first.
    Input that holds anything but the tokens above is rejected: it is either
    not JSON, or JSON that [map[string]string] cannot hold. *)
Fixpoint lex (mode : option string) (skip : nat) (s : string) : option (list token) :=
  match s with
  | EmptyString =>
    match mode, skip with
    | None, O => Some []
    | _, _ => None
    end
  | String c rest =>
    match skip with
    | S k => lex mode k rest
    | O =>
      match mode with
      | Some acc =>
        match string_step s with
        | Close => cons (TString acc) <$> lex None 0 rest
        | Fail => None
        | Emit bytes k => lex (Some (acc +:+ bytes)) k rest
        end
      | None =>
        let b := byte_val c in
        if isSpace b then lex None 0 rest
        else if b =? 0x7B then cons TLBrace <$> lex None 0 rest
        else if b =? 0x7D then cons TRBrace <$> lex None 0 rest
        else if b =? 0x3A then cons TColon <$> lex None 0 rest
        else if b =? 0x2C then cons TComma <$> lex None 0 rest
        else if b =? 0x22 then lex (Some EmptyString) 0 rest
        else if b =? 0x6E then
          if String.prefix "ull" rest then cons TNull <$> lex None 3 rest else None
        else None
      end
    end
  end.

(** A member value: a string, or [null], which leaves the zero value [""]
    in the map. *)
Definition member_value (t : token) : option string :=
  match t with
  | TString s => Some s
  | TNull => Some EmptyString
  | _ => None
  end.

(** The members of an object after its opening brace; a repeated key
    overwrites the earlier value. *)
Fixpoint parse_members (ts : list token) (acc : gmap string string)
  : option (gmap string string) :=
  match ts with
  | TString k :: TColon :: v :: rest =>
    match member_value v with
    | Some s =>
      match rest with
      | [TRBrace] => Some (<[k := s]> acc)
      | TComma :: rest' => parse_members rest' (<[k := s]> acc)
      | _ => None
      end
    | None => None
    end
  | _ => None
  end.

(** The outcome of [json.Unmarshal(data, &m)] for a nil [m] of type
    [map[string]string]: an error, [m] left nil (the document [null]), or
    a map. *)
Inductive unmarshaled := UErr | UNil | UMap (m : gmap string string).

Definition Unmarshal (data : string) : unmarshaled :=
  match lex None 0 data with
  | Some [TNull] => UNil
  | Some [TLBrace; TRBrace] => UMap ∅
  | Some (TLBrace :: ts) =>
    match parse_members ts ∅ with
    | Some m => UMap m
    | None => UErr
    end
  | _ => UErr
  end.

(** *** Decoded documents of any shape ([interface{}] values) *)

#[local] Unset Elimination Schemes.
Inductive value :=
| JNull
| JBool (b : bool)
| JNumber (literal : string)
| JString (s : string)
| JArray (items : list value)
| JObject (fields : list (string * value)).
#[local] Set Elimination Schemes.

End Json.

(** The tokens the scanner finds in a member written by [MarshalIndent]. *)
Definition member_tokens (m : gmap string string) (k : string) (ts : list Json.token)
  : list Json.token :=
  Json.TString (Utf8.coerce k) :: Json.TColon
    :: Json.TString (Utf8.coerce (default EmptyString (m !! k))) :: ts.


(** The tokens of the members of a document, up to the closing brace. *)
Fixpoint members_tokens (m : gmap string string) (ks : list string) : list Json.token :=
  match ks with
  | [] => [Json.TRBrace]
  | [k] => member_tokens m k [Json.TRBrace]
  | k :: ks' => member_tokens m k (Json.TComma :: members_tokens m ks')
  end.


Definition put_member (m : gmap string string) (acc : gmap string string) (k : string)
  : gmap string string :=
  <[Utf8.coerce k := Utf8.coerce (default EmptyString (m !! k))]> acc.

(** The catalog a document written by [MarshalIndent] decodes to: keys and
    values coerced to valid UTF-8, a later key overwriting an equal earlier
    one. *)
Definition reloaded (m : gmap string string) : gmap string string :=
  foldl (put_member m) ∅ (Json.sorted_keys m).

(** A catalog whose keys and values are all valid UTF-8. *)
Definition valid_catalog (m : gmap string string) : Prop :=
  map_Forall (fun k v => Utf8.ValidString k = true /\ Utf8.ValidString v = true) m.

(** ** strings.TrimSpace *)

Module Strings.

(** [unicode.IsSpace] *)
Definition IsSpace (r : N) : bool :=
  if r <=? 0xFF then
    (r =? 0x09) || (r =? 0x0A) || (r =? 0x0B) || (r =? 0x0C) || (r =? 0x0D)
    || (r =? 0x20) || (r =? 0x85) || (r =? 0xA0)
  else
    (r =? 0x1680) || ((0x2000 <=? r) && (r <=? 0x200A))
    || (r =? 0x2028) || (r =? 0x2029) || (r =? 0x202F)
    || (r =? 0x205F) || (r =? 0x3000).

(** [utf8.RuneStart] *)
Definition RuneStart (c : ascii) : bool :=
  negb (N.land (byte_val c) 0xC0 =? 0x80).

(** The loop of [utf8.DecodeLastRuneInString] on the reversed string [rs]:
    the number of trailing bytes from which the last rune is decoded. *)
Definition last_width (rs : string) : nat :=
  match rs with
  | String _ (String c1 r1) =>
    if RuneStart c1 then 2%nat else
    match r1 with
    | EmptyString => 2%nat
    | String c2 r2 =>
      if RuneStart c2 then 3%nat else
      match r2 with
      | EmptyString => 3%nat
      | String c3 r3 =>
        if RuneStart c3 then 4%nat else
        match r3 with
        | EmptyString => 4%nat
        | String _ _ => 5%nat
        end
      end
    end
  | _ => 1%nat
  end.

(** [utf8.DecodeLastRuneInString s], given [rs], the reverse of [s]. *)
Definition DecodeLastRune (rs : string) : N * nat :=
  match rs with
  | EmptyString => (Utf8.RuneError, 0%nat)
  | String c _ =>
    if byte_val c <? Utf8.RuneSelf then (byte_val c, 1%nat)
    else
      let k := last_width rs in
      let d := Utf8.DecodeRune (String.rev (stake k rs)) in
      if (snd d =? k)%nat then d else (Utf8.RuneError, 1%nat)
  end.

(** [strings.TrimLeftFunc]: drop the leading runes that satisfy [f]. *)
Fixpoint trim_left_from (f : N -> bool) (skip : nat) (s : string) : string :=
  match s with
  | EmptyString => EmptyString
  | String _ rest =>
    match skip with
    | S k => trim_left_from f k rest
    | O =>
      let d := Utf8.DecodeRune s in
      if f (fst d) then trim_left_from f (Nat.pred (snd d)) rest else s
    end
  end.
Definition TrimLeftFunc (s : string) (f : N -> bool) : string :=
  trim_left_from f 0 s.

(** [strings.TrimRightFunc], running over the reversed string. *)
Fixpoint trim_right_from (f : N -> bool) (skip : nat) (rs : string) : string :=
  match rs with
  | EmptyString => EmptyString
  | String _ rest =>
    match skip with
    | S k => trim_right_from f k rest
    | O =>
      let d := DecodeLastRune rs in
      if f (fst d) then trim_right_from f (Nat.pred (snd d)) rest else rs
    end
  end.
Definition TrimRightFunc (s : string) (f : N -> bool) : string :=
  String.rev (trim_right_from f 0 (String.rev s)).

Definition TrimFunc (s : string) (f : N -> bool) : string :=
  TrimRightFunc (TrimLeftFunc s f) f.

(** [strings.TrimSpace]; its fast path for ASCII returns the same slice. *)
Definition TrimSpace (s : string) : string := TrimFunc s IsSpace.

End Strings.

(** ** path/filepath, on clean slash-separated paths *)

Module Filepath.

Definition is_sep (c : ascii) : bool := byte_val c =? 0x2F.

Fixpoint strip_seps (rs : string) : string :=
  match rs with
  | String c r => if is_sep c then strip_seps r else rs
  | EmptyString => EmptyString
  end.

Fixpoint until_sep (rs : string) : string :=
  match rs with
  | String c r => if is_sep c then EmptyString else String c (until_sep r)
  | EmptyString => EmptyString
  end.

Fixpoint from_sep (rs : string) : string :=
  match rs with
  | String c r => if is_sep c then rs else from_sep r
  | EmptyString => EmptyString
  end.

(** [filepath.Base]: the last element of the path. *)
Definition Base (path : string) : string :=
  match path with
  | EmptyString => "."
  | _ =>
    match String.rev (until_sep (strip_seps (String.rev path))) with
    | EmptyString => "/"
    | e => e
    end
  end.

(** [filepath.Dir]: all but the last element of the path. *)
Definition Dir (path : string) : string :=
  match from_sep (String.rev path) with
  | EmptyString => "."
  | d =>
    match String.rev (strip_seps d) with
    | EmptyString => "/"
    | e => e
    end
  end.

(** [filepath.Join] of two elements, the first one already clean. *)
Definition Join (a b : string) : string :=
  match String.rev a with
  | EmptyString => b
  | String c _ => if is_sep c then a +:+ b else a +:+ "/" +:+ b
  end.

End Filepath.

(** ** The process and its environment *)

Inductive result (A : Type) :=
| Ok (a : A)
| Err (e : string).
Arguments Ok {A} a.
Arguments Err {A} e.

(** A file of the storage directory: its bytes and whether the process may
    read and write it. *)
Record file := File {
  f_data : string;
  f_readable : bool;
  f_writable : bool
}.

(** The body of an HTTP response as [json.Unmarshal] sees it: bytes that
    are not JSON, or a JSON document. *)
Inductive document :=
| Malformed (e : string)
| Document (v : Json.value).

Inductive http_body :=
| BodyError (e : string)
| BodyBytes (doc : document).

Inductive http_reply :=
| RequestError (e : string)
| Response (status : N) (body : http_body).

(** The lines the commands print, one constructor per [Printf]/[Println]. *)
Inductive line :=
| LSetupError (err : string)
| LUsingBasePath (path : string)
| LKeyExists (key : string)
| LKeyMissingUpdate (key : string)
| LKeyMissingRemove (key : string)
| LBlank
| LAddedAll
| LUpdatedAll
| LRemovedAll
| LNoKeys
| LFound (n : nat)
| LEntry (key value : string)
| LStatusOk (file value : string)
| LTranslationFailed (file err : string)
| LKeyRemoved (file : string)
| LKeyNotFound (file : string)
| LCobraError (err : string).

Definition decimal (n : nat) : string :=
  DecimalString.NilEmpty.string_of_uint (Nat.to_uint n).

(** The text of each line, as the format strings of [main.go] give it. *)
Definition render (l : line) : string :=
  match l with
  | LSetupError err => "❌ Error: " +:+ err +:+ nl
  | LUsingBasePath p => "📂 Using base path: " +:+ p +:+ nl
  | LKeyExists k =>
    "⚠️  Key '" +:+ k +:+ "' already exists. Use 'update' command to modify it." +:+ nl
  | LKeyMissingUpdate k =>
    "⚠️  Key '" +:+ k +:+ "' does not exist. Use 'add' command to create it." +:+ nl
  | LKeyMissingRemove k => "⚠️  Key '" +:+ k +:+ "' does not exist" +:+ nl
  | LBlank => nl
  | LAddedAll => nl +:+ "✨ i18n key added to all languages!" +:+ nl
  | LUpdatedAll => nl +:+ "✨ i18n key updated in all languages!" +:+ nl
  | LRemovedAll => nl +:+ "✨ i18n key removed from all languages!" +:+ nl
  | LNoKeys => "📭 No i18n keys found" +:+ nl
  | LFound n => "📋 Found " +:+ decimal n +:+ " i18n keys:" +:+ nl +:+ nl
  | LEntry k v => "  " +:+ k +:+ ": " +:+ v +:+ nl
  | LStatusOk f v => "✅ " +:+ f +:+ ": " +:+ v +:+ nl
  | LTranslationFailed f err =>
    "❌ " +:+ f +:+ ": Translation failed (" +:+ err +:+ "), using English" +:+ nl
  | LKeyRemoved f => "✅ " +:+ f +:+ ": Key removed" +:+ nl
  | LKeyNotFound f => "⏭️  " +:+ f +:+ ": Key not found" +:+ nl
  | LCobraError err => err +:+ nl
  end.

(** The state the process runs in.  [getwd] is the outcome of [os.Getwd];
    [mkdir_error d] the error of [os.MkdirAll d], if any; [can_create] tells
    whether a file that does not exist can be created; [http_get lang text]
    is the reply to the translation request for [text] into [lang];
    [basePath] is the package variable; [stdout] the lines printed so far. *)
Record world := World {
  getwd : result string;
  mkdir_error : string -> option string;
  can_create : bool;
  files : gmap string file;
  http_get : string -> string -> http_reply;
  basePath : string;
  stdout : list line
}.

Definition set_files (fs : gmap string file) (w : world) : world :=
  World (getwd w) (mkdir_error w) (can_create w) fs (http_get w) (basePath w) (stdout w).
Definition set_basePath (p : string) (w : world) : world :=
  World (getwd w) (mkdir_error w) (can_create w) (files w) (http_get w) p (stdout w).
Definition set_stdout (out : list line) (w : world) : world :=
  World (getwd w) (mkdir_error w) (can_create w) (files w) (http_get w) (basePath w) out.
Definition set_http_get (net : string -> string -> http_reply) (w : world) : world :=
  World (getwd w) (mkdir_error w) (can_create w) (files w) net (basePath w) (stdout w).

(** Commands are state transformers over the world. *)
Definition M (A : Type) : Type := world -> A * world.

Definition ret {A} (a : A) : M A := fun w => (a, w).
Definition bind {A B} (m : M A) (k : A -> M B) : M B :=
  fun w => k (fst (m w)) (snd (m w)).

Notation "x <- m ;; k" := (bind m (fun x => k))
  (at level 100, m at next level, right associativity).
Notation "m ;;; k" := (bind m (fun _ => k))
  (at level 100, right associativity).

Fixpoint for_each {A} (l : list A) (body : A -> M unit) : M unit :=
  match l with
  | [] => ret tt
  | x :: l' => body x ;;; for_each l' body
  end.

Definition println (l : line) : M unit :=
  fun w => (tt, set_stdout (stdout w ++ [l]) w).

Definition Getwd : M (result string) := fun w => (getwd w, w).
Definition get_basePath : M string := fun w => (basePath w, w).
Definition put_basePath (p : string) : M unit := fun w => (tt, set_basePath p w).

Definition MkdirAll (dir : string) : M (option string) :=
  fun w => (mkdir_error w dir, w).

(** [os.ReadFile] *)
Definition ReadFile (path : string) : M (result string) :=
  fun w =>
    match files w !! path with
    | Some f =>
      if f_readable f then (Ok (f_data f), w)
      else (Err ("open " +:+ path +:+ ": permission denied"), w)
    | None => (Err ("open " +:+ path +:+ ": no such file or directory"), w)
    end.

(** [os.WriteFile path data 0644]: an existing file is truncated and keeps
    its mode; a missing one is created readable and writable. *)
Definition WriteFile (path data : string) : M (option string) :=
  fun w =>
    match files w !! path with
    | Some f =>
      if f_writable f
      then (None, set_files (<[path := File data (f_readable f) true]> (files w)) w)
      else (Some ("open " +:+ path +:+ ": permission denied"), w)
    | None =>
      if can_create w
      then (None, set_files (<[path := File data true true]> (files w)) w)
      else (Some ("open " +:+ path +:+ ": permission denied"), w)
    end.

(** ** main.go *)

Definition languages : list (string * string) :=
  [("en.json", "en"); ("km.json", "km"); ("zh.json", "zh-CN")].

Definition initBasePath : M (option string) :=
  r <- Getwd ;;
  match r with
  | Err e => ret (Some ("failed to get current directory: " +:+ e))
  | Ok cwd =>
    put_basePath
      (Filepath.Join (Filepath.Join (Filepath.Join (Filepath.Join
         cwd "pkg") "translates") "localize") "i18n") ;;;
    base <- get_basePath ;;
    err <- MkdirAll base ;;
    match err with
    | Some e => ret (Some ("failed to create directory: " +:+ e))
    | None => println (LUsingBasePath base) ;;; ret None
    end
  end.

Definition loadJSON (path : string) : M (gmap string string) :=
  r <- ReadFile path ;;
  match r with
  | Err _ => ret ∅
  | Ok fileData =>
    match Json.Unmarshal fileData with
    | Json.UErr => ret ∅
    | Json.UNil => ret ∅
    | Json.UMap data => ret data
    end
  end.

(** The bytes [saveJSON] hands to [os.WriteFile], when [range data] yields
    the keys in the order [ranged]. *)
Definition jsonBytes_ranging (ranged : list string) (data : gmap string string) : string :=
  let keys := merge_sort String.le ranged in
  let sorted :=
    foldl (fun acc k => <[k := default EmptyString (data !! k)]> acc) ∅ keys in
  Json.MarshalIndent sorted.

Definition saveJSON_ranging (ranged : list string) (path : string)
    (data : gmap string string) : M (option string) :=
  let jsonBytes := jsonBytes_ranging ranged data in
  err <- MkdirAll (Filepath.Dir path) ;;
  match err with
  | Some e => ret (Some e)
  | None => WriteFile path jsonBytes
  end.

(** [saveJSON], ranging over the map in the order of its enumeration. *)
Definition saveJSON (path : string) (data : gmap string string) : M (option string) :=
  saveJSON_ranging (elements (dom data)) path data.

Definition kind_name (v : Json.value) : string :=
  match v with
  | Json.JNull => "null"
  | Json.JBool _ => "bool"
  | Json.JNumber _ => "number"
  | Json.JString _ => "string"
  | Json.JArray _ => "array"
  | Json.JObject _ => "object"
  end.

(** [json.Unmarshal(body, &result)] for [result : []interface{}]. *)
Definition Unmarshal_slice (doc : document) : result (list Json.value) :=
  match doc with
  | Malformed e => Err e
  | Document (Json.JArray items) => Ok items
  | Document Json.JNull => Ok []
  | Document v =>
    Err ("json: cannot unmarshal " +:+ kind_name v
         +:+ " into Go value of type []interface {}")
  end.

(** The type assertions [x.([]interface{})] and [x.(string)]. *)
Definition as_slice (x : Json.value) : option (list Json.value) :=
  match x with
  | Json.JArray items => Some items
  | _ => None
  end.

Definition as_string (x : Json.value) : option string :=
  match x with
  | Json.JString s => Some s
  | _ => None
  end.

(** The loop over [translations], writing into the [strings.Builder]. *)
Definition collect (translations : list Json.value) : string :=
  foldl (fun translatedText item =>
           match as_slice item with
           | Some (a0 :: _) =>
             match as_string a0 with
             | Some str => translatedText +:+ str
             | None => translatedText
             end
           | _ => translatedText
           end) EmptyString translations.

(** Lines 304-327 of [googleTranslate]: from the response body to the
    translated text. *)
Definition parse_response (doc : document) : result string :=
  match Unmarshal_slice doc with
  | Err e => Err ("failed to parse response: " +:+ e)
  | Ok result =>
    match result with
    | [] => Err "empty response"
    | first :: _ =>
      match as_slice first with
      | None => Err "invalid response format"
      | Some [] => Err "invalid response format"
      | Some translations => Ok (Strings.TrimSpace (collect translations))
      end
    end
  end.

Definition googleTranslate (text targetLang : string) : M (result string) :=
  fun w =>
    match http_get w targetLang text with
    | RequestError e => (Err ("request failed: " +:+ e), w)
    | Response status body =>
      if negb (status =? 200) then
        (Err ("API returned status " +:+ decimal (N.to_nat status)), w)
      else
        match body with
        | BodyError e => (Err ("failed to read response: " +:+ e), w)
        | BodyBytes doc => (parse_response doc, w)
        end
    end.

Definition processAddOrUpdate (path key value : string) (isEnglish : bool)
    (langCode : string) : M unit :=
  data <- loadJSON path ;;
  if isEnglish then
    saveJSON path (<[key := value]> data) ;;;
    println (LStatusOk (Filepath.Base path) value)
  else
    r <- googleTranslate value langCode ;;
    translated <-
      match r with
      | Err err =>
        println (LTranslationFailed (Filepath.Base path) err) ;;; ret value
      | Ok translated => ret translated
      end ;;
    saveJSON path (<[key := translated]> data) ;;;
    println (LStatusOk (Filepath.Base path) translated).

Definition has_key (data : gmap string string) (key : string) : bool :=
  bool_decide (is_Some (data !! key)).

(** The body of the loop of [runAdd] and [runUpdate]. *)
Definition add_body (key value : string) (l : string * string) : M unit :=
  let '(file, langCode) := l in
  base <- get_basePath ;;
  processAddOrUpdate (Filepath.Join base file) key value
    (String.eqb file "en.json") langCode.

(** The body of the loop of [runRemove]. *)
Definition remove_body (key : string) (l : string * string) : M unit :=
  let '(file, _) := l in
  base <- get_basePath ;;
  data <- loadJSON (Filepath.Join base file) ;;
  if has_key data key then
    saveJSON (Filepath.Join base file) (delete key data) ;;;
    println (LKeyRemoved file)
  else println (LKeyNotFound file).

(** The handlers take the order [ranged] in which [range languages] yields
    the entries of the map. *)
Definition runAdd (ranged : list (string * string)) (key value : string) : M unit :=
  err <- initBasePath ;;
  match err with
  | Some e => println (LSetupError e)
  | None =>
    base <- get_basePath ;;
    enData <- loadJSON (Filepath.Join base "en.json") ;;
    if has_key enData key then println (LKeyExists key)
    else
      println LBlank ;;;
      for_each ranged (add_body key value) ;;;
      println LAddedAll
  end.

Definition runList : M unit :=
  err <- initBasePath ;;
  match err with
  | Some e => println (LSetupError e)
  | None =>
    base <- get_basePath ;;
    data <- loadJSON (Filepath.Join base "en.json") ;;
    if (size data =? 0)%nat then println LNoKeys
    else
      println (LFound (size data)) ;;;
      for_each (merge_sort String.le (elements (dom data)))
        (fun k => println (LEntry k (default EmptyString (data !! k))))
  end.

Definition runUpdate (ranged : list (string * string)) (key value : string) : M unit :=
  err <- initBasePath ;;
  match err with
  | Some e => println (LSetupError e)
  | None =>
    base <- get_basePath ;;
    enData <- loadJSON (Filepath.Join base "en.json") ;;
    if negb (has_key enData key) then println (LKeyMissingUpdate key)
    else
      println LBlank ;;;
      for_each ranged (add_body key value) ;;;
      println LUpdatedAll
  end.

Definition runRemove (ranged : list (string * string)) (key : string) : M unit :=
  err <- initBasePath ;;
  match err with
  | Some e => println (LSetupError e)
  | None =>
    base <- get_basePath ;;
    enData <- loadJSON (Filepath.Join base "en.json") ;;
    if negb (has_key enData key) then println (LKeyMissingRemove key)
    else
      println LBlank ;;;
      for_each ranged (remove_body key) ;;;
      println LRemovedAll
  end.

(** What [rootCmd.Execute] makes of the command line: an error (unknown
    command, wrong number of arguments), the help text, or one handler run
    to its end. *)
Inductive invocation :=
| CobraError (err : string)
| Help
| Add (key value : string)
| List
| Update (key value : string)
| Remove (key : string).

(** [main]: the exit status of the process. *)
Definition main (ranged : list (string * string)) (inv : invocation) : M N :=
  match inv with
  | CobraError err => println (LCobraError err) ;;; ret 1
  | Help => ret 0
  | Add key value => runAdd ranged key value ;;; ret 0
  | List => runList ;;; ret 0
  | Update key value => runUpdate ranged key value ;;; ret 0
  | Remove key => runRemove ranged key ;;; ret 0
  end.

(** ** Observations on a world *)

(** The catalog [loadJSON] returns for [path]. *)
Definition catalog (w : world) (path : string) : gmap string string :=
  fst (loadJSON path w).

(** The error [saveJSON] returns for [path], if any; it does not depend on
    the catalog that is saved. *)
Definition save_error (w : world) (path : string) : option string :=
  match mkdir_error w (Filepath.Dir path) with
  | Some e => Some e
  | None =>
    match files w !! path with
    | Some f =>
      if f_writable f then None
      else Some ("open " +:+ path +:+ ": permission denied")
    | None =>
      if can_create w then None
      else Some ("open " +:+ path +:+ ": permission denied")
    end
  end.

(** Can the file at [path] be read back once it has been written? *)
Definition readable_or_absent (w : world) (path : string) : bool :=
  match files w !! path with
  | Some f => f_readable f
  | None => true
  end.

(** The world after a successful [os.WriteFile path data]. *)
Definition written (path data : string) (w : world) : world :=
  set_files (<[path := File data (readable_or_absent w path) true]> (files w)) w.

(** The directory [initBasePath] computes from the working directory. *)
Definition base_dir (cwd : string) : string :=
  Filepath.Join (Filepath.Join (Filepath.Join (Filepath.Join
    cwd "pkg") "translates") "localize") "i18n".

(** The world after [saveJSON path data], whether or not it succeeded. *)
Definition saved (path : string) (data : gmap string string) (w : world) : world :=
  snd (saveJSON path data w).

(** The value [processAddOrUpdate] stores for another language. *)
Definition translated_or_value (w : world) (value langCode : string) : string :=
  match fst (googleTranslate value langCode w) with
  | Ok translated => translated
  | Err _ => value
  end.

(** ** Sample worlds and catalogs *)

(** An empty storage directory under [/srv/app], every translation request
    failing. *)
Definition empty_world : world :=
  World (Ok "/srv/app") (fun _ => None) true ∅
        (fun _ _ => RequestError "dial tcp: no route to host") EmptyString [].

Definition en_path : string := "/srv/app/pkg/translates/localize/i18n/en.json".
Definition km_path : string := "/srv/app/pkg/translates/localize/i18n/km.json".
Definition zh_path : string := "/srv/app/pkg/translates/localize/i18n/zh.json".

(** A string that is not valid UTF-8: the single byte 0xFF. *)
Definition invalid_text : string := String (byte_of 0xFF) EmptyString.

Definition two_keys : gmap string string :=
  <["b" := "second"]> (<["a" := "first"]> ∅).

(** A storage directory whose [en.json] holds bytes that are not JSON. *)
Definition broken_world : world :=
  set_files (<[en_path := File "[1, 2" true true]> ∅) empty_world.





(** A reply with the translation of "Hello" and the usual metadata. *)
Definition hello_reply : http_reply :=
  Response 200 (BodyBytes (Document (Json.JArray
    [Json.JArray [Json.JArray [Json.JString "Bonjour"; Json.JString "Hello";
                               Json.JNull; Json.JNull; Json.JNumber "10"]];
     Json.JNull; Json.JString "en"]))).

(** A storage directory in which [km.json] exists and is write-protected,
    the translation service answering. *)
Definition protected_world : world :=
  set_http_get (fun _ _ => hello_reply)
    (set_files (<[km_path := File "{}" true false]> ∅) empty_world).


(** The handlers of the four commands. *)
Definition is_command (inv : invocation) : bool :=
  match inv with
  | Add _ _ | List | Update _ _ | Remove _ => true
  | _ => false
  end.

(** A token that holds a string holds valid UTF-8. *)
Definition token_valid (t : Json.token) : Prop :=
  match t with
  | Json.TString s => Utf8.ValidString s = true
  | _ => True
  end.

Definition mode_valid (mode : option string) : Prop :=
  match mode with
  | Some acc => Utf8.ValidString acc = true
  | None => True
  end.

Definition hello_catalog : gmap string string := <["greeting" := "Hello"]> ∅.

(** A storage directory whose [en.json] already holds the key
    [greeting]. *)
Definition greeted_world : world :=
  set_files (<[en_path := File (Json.MarshalIndent hello_catalog) true true]> ∅)
            empty_world.

(** ** Sequences of operations *)

(** One invocation of the tool: the command, the order in which
    [range languages] yields the languages during it, and the replies of the
    translation service during it. *)
Record operation := Operation {
  op_command : invocation;
  op_ranged : list (string * string);
  op_net : string -> string -> http_reply
}.

(** The world after the operation. *)
Definition exec (o : operation) (w : world) : world :=
  snd (main (op_ranged o) (op_command o) (set_http_get (op_net o) w)).

(** The worlds observed after each operation of a sequence. *)
Fixpoint trace (ops : list operation) (w : world) : list world :=
  match ops with
  | [] => []
  | o :: ops' => exec o w :: trace ops' (exec o w)
  end.

(** Key parity: every managed catalog has the key set of [en.json]. *)
Definition parity (base : string) (w : world) : Prop :=
  Forall (fun l : string * string =>
            dom (catalog w (Filepath.Join base (fst l)))
            = dom (catalog w (Filepath.Join base "en.json")))
         languages.

(** Every managed catalog file that exists can be read. *)
Definition all_readable (base : string) (w : world) : Prop :=
  Forall (fun l : string * string =>
            readable_or_absent w (Filepath.Join base (fst l)) = true)
         languages.

(** The precondition each mutating command checks on the reference
    catalog. *)
Definition precondition (inv : invocation) (enData : gmap string string) : bool :=
  match inv with
  | Add key _ => negb (has_key enData key)
  | Update key _ => has_key enData key
  | Remove key => has_key enData key
  | _ => false
  end.

(** An add, update or remove succeeds in [w] when setup succeeds, its
    precondition holds, and [saveJSON] returns no error for any managed
    catalog. *)
Definition succeeds (cwd : string) (o : operation) (w : world) : Prop :=
  getwd w = Ok cwd
  /\ mkdir_error w (base_dir cwd) = None
  /\ op_ranged o ≡ₚ languages
  /\ precondition (op_command o)
       (catalog w (Filepath.Join (base_dir cwd) "en.json")) = true
  /\ Forall (fun l : string * string =>
               save_error w (Filepath.Join (base_dir cwd) (fst l)) = None)
            languages.

Fixpoint all_succeed (cwd : string) (ops : list operation) (w : world) : Prop :=
  match ops with
  | [] => True
  | o :: ops' => succeeds cwd o w /\ all_succeed cwd ops' (exec o w)
  end.

(** A storage directory in which [km.json] exists, can be written and
    cannot be read. *)
Definition unreadable_world : world :=
  set_files (<[km_path := File "{}" false true]> ∅) empty_world.

Definition add_greeting : operation :=
  Operation (Add "greeting" "Hello") languages
            (fun _ _ => RequestError "dial tcp: no route to host").

(** A loop body that touches the catalog of its own language only: it
    keeps the base path, the errors [saveJSON] would return and the
    readability of every file, leaves the other catalogs as they were, and
    maps the key set of its own catalog through [F] whenever its file can
    be written and read back. *)
Definition local_effect (base : string) (F : gset string -> gset string)
    (body : string * string -> M unit) : Prop :=
  forall (l : string * string) (w : world),
    basePath w = base ->
    basePath (snd (body l w)) = base
    /\ (forall p, save_error (snd (body l w)) p = save_error w p)
    /\ (forall p, readable_or_absent (snd (body l w)) p = readable_or_absent w p)
    /\ (forall p, p <> Filepath.Join base (fst l) ->
                  catalog (snd (body l w)) p = catalog w p)
    /\ (save_error w (Filepath.Join base (fst l)) = None ->
        readable_or_absent w (Filepath.Join base (fst l)) = true ->
        dom (catalog (snd (body l w)) (Filepath.Join base (fst l)))
        = F (dom (catalog w (Filepath.Join base (fst l))))).

(** Two worlds with the same storage. *)
Definition same_store (w w' : world) : Prop :=
  files w = files w' /\ mkdir_error w = mkdir_error w' /\ can_create w = can_create w'.

Definition add_farewell : operation :=
  Operation (Add "farewell" "Bye") languages
            (fun _ _ => RequestError "dial tcp: no route to host").

Definition remove_greeting : operation :=
  Operation (Remove "greeting") [("zh.json", "zh-CN"); ("en.json", "en"); ("km.json", "km")]
            (fun _ _ => hello_reply).

Definition update_greeting : operation :=
  Operation (Update "greeting" "Hello") [("km.json", "km"); ("zh.json", "zh-CN"); ("en.json", "en")]
            (fun _ _ => hello_reply).

(** ** Further observations on the commands *)

(** The path of the catalog [file] under the working directory [cwd]. *)
Definition managed (cwd file : string) : string :=
  Filepath.Join (base_dir cwd) file.

(** What no command changes: the outcome of the system calls, the errors
    [saveJSON] would return, the readability of every path, and the
    existence and permissions of every file. *)
Definition steady (w w' : world) : Prop :=
  getwd w' = getwd w
  /\ mkdir_error w' = mkdir_error w
  /\ can_create w' = can_create w
  /\ http_get w' = http_get w
  /\ (forall p, save_error w' p = save_error w p)
  /\ (forall p, readable_or_absent w' p = readable_or_absent w p)
  /\ (forall p f, files w !! p = Some f ->
        exists data, files w' !! p = Some (File data (f_readable f) (f_writable f))).

(** The lines [runList] prints for the catalog [data] after the base path
    line. *)
Definition listing (data : gmap string string) : list line :=
  if (size data =? 0)%nat then [LNoKeys]
  else LFound (size data)
       :: map (fun k => LEntry k (default EmptyString (data !! k)))
              (Json.sorted_keys data).

(** The value [add_body] stores for the language [l] when the translation
    service answers as in [w]. *)
Definition stored_value (w : world) (value : string) (l : string * string) : string :=
  if String.eqb (fst l) "en.json" then value
  else translated_or_value w value (snd l).

(** A loop body that rewrites the catalog of its own language only, while
    the translation service answers as [net]: it keeps what [steady] lists
    and the base path, leaves every other file as it was, and maps its own
    catalog through [G] whenever its file can be written and read back. *)
Definition local_update (base : string) (net : string -> string -> http_reply)
    (G : string * string -> gmap string string -> gmap string string)
    (body : string * string -> M unit) : Prop :=
  forall (l : string * string) (w : world),
    basePath w = base -> http_get w = net ->
    basePath (snd (body l w)) = base
    /\ steady w (snd (body l w))
    /\ (forall p, p <> Filepath.Join base (fst l) ->
                  files (snd (body l w)) !! p = files w !! p)
    /\ (save_error w (Filepath.Join base (fst l)) = None ->
        readable_or_absent w (Filepath.Join base (fst l)) = true ->
        catalog (snd (body l w)) (Filepath.Join base (fst l))
        = G l (catalog w (Filepath.Join base (fst l)))).

(** The catalog [add_body] leaves for a language: the old one with the
    stored value under the key, as it is read back. *)
Definition with_key (w : world) (key value : string) (l : string * string)
    (m : gmap string string) : gmap string string :=
  reloaded (<[key := stored_value w value l]> m).

(** The world in which the loop of a mutating command starts: the base path
    is set and the first two lines are printed. *)
Definition started (cwd : string) (w : world) : world :=
  set_stdout (stdout w ++ [LUsingBasePath (base_dir cwd); LBlank])
             (set_basePath (base_dir cwd) w).

(** The world in which a command ends without entering its loop. *)
Definition turned_down (cwd : string) (l : line) (w : world) : world :=
  set_stdout (stdout w ++ [LUsingBasePath (base_dir cwd); l])
             (set_basePath (base_dir cwd) w).

(** The world at the end of a loop, with the closing line. *)
Definition closed (l : line) (w : world) : world :=
  set_stdout (stdout w ++ [l]) w.

(** Setup succeeds in [w] and every managed catalog can be written and read
    back. *)
Definition ready (cwd : string) (w : world) : Prop :=
  getwd w = Ok cwd
  /\ mkdir_error w (base_dir cwd) = None
  /\ Forall (fun l : string * string =>
               save_error w (managed cwd (fst l)) = None
               /\ readable_or_absent w (managed cwd (fst l)) = true)
            languages.

(** A path element without separator. *)
Fixpoint plain (s : string) : bool :=
  match s with
  | EmptyString => true
  | String c r => negb (Filepath.is_sep c) && plain r
  end.

(** A file name: a non-empty path element without separator. *)
Definition file_name (s : string) : bool :=
  plain s && negb (String.eqb s EmptyString).

(** The lines [processAddOrUpdate] prints for a language: the failure of
    the translation, if any, then the status line with the stored value. *)
Definition report (w : world) (value : string) (l : string * string) : list line :=
  (if String.eqb (fst l) "en.json" then []
   else match fst (googleTranslate value (snd l) w) with
        | Err err => [LTranslationFailed (fst l) err]
        | Ok _ => []
        end)
  ++ [LStatusOk (fst l) (stored_value w value l)].

(** The line the loop of [runRemove] prints for a language. *)
Definition removal_line (w : world) (cwd key : string) (l : string * string) : line :=
  if has_key (catalog w (managed cwd (fst l))) key
  then LKeyRemoved (fst l) else LKeyNotFound (fst l).

(** An ASCII white-space byte: tab, line feed, vertical tab, form feed,
    carriage return or space. *)
Definition ascii_space (c : ascii) : bool :=
  (byte_val c <? Utf8.RuneSelf) && Strings.IsSpace (byte_val c).

(** Every byte of [s] is an ASCII byte. *)
Fixpoint all_ascii (s : string) : bool :=
  match s with
  | EmptyString => true
  | String c r => (byte_val c <? Utf8.RuneSelf) && all_ascii r
  end.
Example decode_euro : Utf8.DecodeRune "€x" = (0x20AC, 3%nat).
Proof. reflexivity. Qed.
Example encode_euro : Utf8.EncodeRune 0x20AC = "€".
Proof. reflexivity. Qed.
Example coerce_bad : Utf8.coerce (String (byte_of 0xFF) "a") = "�a".
Proof. reflexivity. Qed.

(** ** Facts about the UTF-8 codec *)

Ltac Zify.zify_post_hook ::= Z.to_euclidean_division_equations.

Section bits.

Lemma land_shiftl_small a b k : b < 2 ^ k -> N.land (N.shiftl a k) b = 0.
Proof.
  intros Hb. apply N.bits_inj_iff. intros n. rewrite N.land_spec, N.bits_0.
  destruct (N.ltb_spec n k) as [Hn|Hn].
  - by rewrite N.shiftl_spec_low.
  - destruct (N.eq_dec b 0) as [->|Hz]; [by rewrite N.bits_0, andb_false_r|].
    rewrite (N.bits_above_log2 b n), andb_false_r; [done|].
    apply N.lt_le_trans with k; [|done]. apply N.log2_lt_pow2; lia.
Qed.

Lemma lor_shiftl_add a b k : b < 2 ^ k -> N.lor (N.shiftl a k) b = a * 2 ^ k + b.
Proof.
  intros Hb. rewrite <- N.lxor_lor by (by apply land_shiftl_small).
  rewrite <- N.add_nocarry_lxor by (by apply land_shiftl_small).
  by rewrite N.shiftl_mul_pow2.
Qed.

Lemma pack2 a b : b < 64 -> N.lor (N.shiftl a 6) b = a * 64 + b.
Proof. intros. by rewrite lor_shiftl_add. Qed.

Lemma pack3 a b c :
  b < 64 -> c < 64 ->
  N.lor (N.lor (N.shiftl a 12) (N.shiftl b 6)) c = a * 4096 + b * 64 + c.
Proof.
  intros. change 12 with (6 + 6). rewrite <- N.shiftl_shiftl, <- N.shiftl_lor.
  rewrite !pack2 by done. lia.
Qed.

Lemma pack4 a b c d :
  b < 64 -> c < 64 -> d < 64 ->
  N.lor (N.lor (N.lor (N.shiftl a 18) (N.shiftl b 12)) (N.shiftl c 6)) d
  = a * 262144 + b * 4096 + c * 64 + d.
Proof.
  intros. change 18 with (6 + 12). change 12 with (6 + 6).
  rewrite <- !N.shiftl_shiftl, <- !N.shiftl_lor.
  rewrite !pack2 by done. lia.
Qed.

Lemma tag_t2 y : y < 64 -> N.lor Utf8.t2 y = 0xC0 + y.
Proof. intros. change Utf8.t2 with (N.shiftl 3 6). by rewrite pack2. Qed.
Lemma tag_tx y : y < 64 -> N.lor Utf8.tx y = 0x80 + y.
Proof. intros. change Utf8.tx with (N.shiftl 2 6). by rewrite pack2. Qed.
Lemma tag_t3 y : y < 32 -> N.lor Utf8.t3 y = 0xE0 + y.
Proof. intros. change Utf8.t3 with (N.shiftl 7 5). by rewrite lor_shiftl_add. Qed.
Lemma tag_t4 y : y < 16 -> N.lor Utf8.t4 y = 0xF0 + y.
Proof. intros. change Utf8.t4 with (N.shiftl 15 4). by rewrite lor_shiftl_add. Qed.

Lemma land_maskx x : N.land x Utf8.maskx = x mod 64.
Proof. change Utf8.maskx with (N.ones 6). by rewrite N.land_ones. Qed.
Lemma land_mask2 x : N.land x Utf8.mask2 = x mod 32.
Proof. change Utf8.mask2 with (N.ones 5). by rewrite N.land_ones. Qed.
Lemma land_mask3 x : N.land x Utf8.mask3 = x mod 16.
Proof. change Utf8.mask3 with (N.ones 4). by rewrite N.land_ones. Qed.
Lemma land_mask4 x : N.land x Utf8.mask4 = x mod 8.
Proof. change Utf8.mask4 with (N.ones 3). by rewrite N.land_ones. Qed.

Lemma shiftr6 x : N.shiftr x 6 = x / 64.
Proof. by rewrite N.shiftr_div_pow2. Qed.
Lemma shiftr12 x : N.shiftr x 12 = x / 4096.
Proof. by rewrite N.shiftr_div_pow2. Qed.
Lemma shiftr18 x : N.shiftr x 18 = x / 262144.
Proof. by rewrite N.shiftr_div_pow2. Qed.

End bits.

Lemma byte_of_val c : byte_of (byte_val c) = c.
Proof. apply ascii_N_embedding. Qed.

Lemma byte_val_bound c : byte_val c < 256.
Proof. apply N_ascii_bounded. Qed.

Lemma byte_of_eq n c : n = byte_val c -> byte_of n = c.
Proof. intros ->. apply byte_of_val. Qed.

(** The lead-byte classes, spelled out. *)
Lemma first_multi b sz lo hi :
  Utf8.first b = Utf8.LMulti sz lo hi ->
  (sz = 2%nat /\ 0xC2 <= b < 0xE0 /\ lo = 0x80 /\ hi = 0xBF) \/
  (sz = 3%nat /\ b = 0xE0 /\ lo = 0xA0 /\ hi = 0xBF) \/
  (sz = 3%nat /\ 0xE1 <= b < 0xF0 /\ b <> 0xED /\ lo = 0x80 /\ hi = 0xBF) \/
  (sz = 3%nat /\ b = 0xED /\ lo = 0x80 /\ hi = 0x9F) \/
  (sz = 4%nat /\ b = 0xF0 /\ lo = 0x90 /\ hi = 0xBF) \/
  (sz = 4%nat /\ 0xF1 <= b < 0xF4 /\ lo = 0x80 /\ hi = 0xBF) \/
  (sz = 4%nat /\ b = 0xF4 /\ lo = 0x80 /\ hi = 0x8F).
Proof.
  unfold Utf8.first.
  repeat (case_match; try discriminate);
    intros [= <- <- <-];
    repeat match goal with
           | H : (_ <? _) = _ |- _ => first [apply N.ltb_lt in H | apply N.ltb_ge in H]
           | H : (_ =? _) = _ |- _ => first [apply N.eqb_eq in H | apply N.eqb_neq in H]
           end; lia.
Qed.

Lemma first_ascii b : Utf8.first b = Utf8.LAscii <-> b < 0x80.
Proof.
  unfold Utf8.first. split.
  - repeat (case_match; try discriminate). intros _. by apply N.ltb_lt.
  - intros ?%N.ltb_lt. by case_match.
Qed.

Lemma outside_false lo hi b : Utf8.outside lo hi b = false <-> lo <= b <= hi.
Proof.
  unfold Utf8.outside. rewrite orb_false_iff, !N.ltb_ge. lia.
Qed.

(** Rewriting the masks and shifts of the codec into arithmetic. *)
Ltac bits_arith :=
  rewrite ?land_maskx, ?land_mask2, ?land_mask3, ?land_mask4;
  rewrite ?pack2, ?pack3, ?pack4 by lia;
  rewrite ?shiftr6, ?shiftr12, ?shiftr18;
  rewrite ?land_maskx;
  rewrite ?tag_t2, ?tag_t3, ?tag_t4, ?tag_tx by lia.

(** Decoding a valid encoding and encoding the rune again gives the bytes
    back. *)
Lemma encode_decode s r n :
  Utf8.DecodeRune s = (r, n) -> Utf8.is_bad (r, n) = false -> s <> EmptyString ->
  Utf8.EncodeRune r = stake n s.
Proof.
  destruct s as [|c0 r1]; [done|]. intros Hd Hbad _.
  unfold Utf8.DecodeRune in Hd.
  pose proof (byte_val_bound c0) as B0.
  destruct (Utf8.first (byte_val c0)) as [| |sz lo hi] eqn:Hf.
  - apply first_ascii in Hf. injection Hd as <- <-.
    unfold Utf8.EncodeRune. replace (byte_val c0 <=? 0x7F) with true
      by (symmetry; apply N.leb_le; lia).
    simpl. by rewrite byte_of_val.
  - injection Hd as <- <-. done.
  - apply first_multi in Hf.
    destruct (slen _ <? sz)%nat; [by injection Hd as <- <-|].
    destruct r1 as [|c1 r2]; [by injection Hd as <- <-|].
    pose proof (byte_val_bound c1) as B1.
    destruct (Utf8.outside lo hi (byte_val c1)) eqn:H1; [by injection Hd as <- <-|].
    apply outside_false in H1.
    destruct (sz <=? 2)%nat eqn:Hs2.
    { injection Hd as <- <-. apply Nat.leb_le in Hs2.
      destruct Hf as [(-> & ? & -> & ->)|Hf]; [|lia].
      unfold Utf8.EncodeRune. bits_arith.
      set (r := byte_val c0 mod 32 * 64 + byte_val c1 mod 64).
      assert (0x80 <= r <= 0x7FF) as Hr by (subst r; lia).
      replace (r <=? 0x7F) with false by (symmetry; apply N.leb_gt; lia).
      replace (r <=? 0x7FF) with true by (symmetry; apply N.leb_le; lia).
      bits_arith. simpl. f_equal; [|f_equal]; apply byte_of_eq; subst r; lia. }
    destruct r2 as [|c2 r3]; [by injection Hd as <- <-|].
    pose proof (byte_val_bound c2) as B2.
    destruct (Utf8.outside Utf8.locb Utf8.hicb (byte_val c2)) eqn:H2;
      [by injection Hd as <- <-|].
    apply outside_false in H2. unfold Utf8.locb, Utf8.hicb in H2.
    apply Nat.leb_gt in Hs2.
    destruct (sz <=? 3)%nat eqn:Hs3.
    { injection Hd as <- <-. apply Nat.leb_le in Hs3.
      unfold Utf8.EncodeRune. bits_arith.
      set (r := byte_val c0 mod 16 * 4096 + byte_val c1 mod 64 * 64 + byte_val c2 mod 64).
      assert (0x800 <= r <= 0xFFFF /\ ~ (0xD800 <= r <= 0xDFFF)) as Hr
        by (subst r; lia).
      replace (r <=? 0x7F) with false by (symmetry; apply N.leb_gt; lia).
      replace (r <=? 0x7FF) with false by (symmetry; apply N.leb_gt; lia).
      replace (Utf8.MaxRune <? r) with false
        by (symmetry; apply N.ltb_ge; unfold Utf8.MaxRune; lia).
      replace ((Utf8.surrogateMin <=? r) && (r <=? Utf8.surrogateMax)) with false.
      2:{ symmetry. apply andb_false_iff. rewrite !N.leb_gt.
          unfold Utf8.surrogateMin, Utf8.surrogateMax. lia. }
      replace (r <=? 0xFFFF) with true by (symmetry; apply N.leb_le; lia).
      simpl. unfold Utf8.str3. bits_arith.
      f_equal; [|f_equal; [|f_equal]]; apply byte_of_eq; subst r; lia. }
    destruct r3 as [|c3 r4]; [by injection Hd as <- <-|].
    pose proof (byte_val_bound c3) as B3.
    destruct (Utf8.outside Utf8.locb Utf8.hicb (byte_val c3)) eqn:H3;
      [by injection Hd as <- <-|].
    apply outside_false in H3. unfold Utf8.locb, Utf8.hicb in H3.
    apply Nat.leb_gt in Hs3. injection Hd as <- <-.
    unfold Utf8.EncodeRune. bits_arith.
    set (r := byte_val c0 mod 8 * 262144 + byte_val c1 mod 64 * 4096
              + byte_val c2 mod 64 * 64 + byte_val c3 mod 64).
    assert (0x10000 <= r <= 0x10FFFF) as Hr by (subst r; lia).
    replace (r <=? 0x7F) with false by (symmetry; apply N.leb_gt; lia).
    replace (r <=? 0x7FF) with false by (symmetry; apply N.leb_gt; lia).
    replace (Utf8.MaxRune <? r) with false
      by (symmetry; apply N.ltb_ge; unfold Utf8.MaxRune; lia).
    replace ((Utf8.surrogateMin <=? r) && (r <=? Utf8.surrogateMax)) with false.
    2:{ symmetry. apply andb_false_iff. rewrite !N.leb_gt.
        unfold Utf8.surrogateMin, Utf8.surrogateMax. lia. }
    replace (r <=? 0xFFFF) with false by (symmetry; apply N.leb_gt; lia).
    simpl. unfold Utf8.str3. bits_arith.
    f_equal; [|f_equal; [|f_equal; [|f_equal]]]; apply byte_of_eq; subst r; lia.
Qed.

(** ** Byte-string bookkeeping *)

Lemma sapp_nil_l s : EmptyString +:+ s = s.
Proof. reflexivity. Qed.

Lemma sapp_cons c s t : String c s +:+ t = String c (s +:+ t).
Proof. reflexivity. Qed.

Lemma sapp_nil_r s : s +:+ EmptyString = s.
Proof. induction s as [|c s IH]; [done|]. by rewrite sapp_cons, IH. Qed.

Lemma sapp_assoc s t u : (s +:+ t) +:+ u = s +:+ (t +:+ u).
Proof. induction s as [|c s IH]; [done|]. by rewrite !sapp_cons, IH. Qed.

Lemma slen_sdrop n s : slen (sdrop n s) = (slen s - n)%nat.
Proof.
  revert s. induction n as [|n IH]; intros [|c s]; simpl; done.
Qed.

Lemma stake_sdrop n s : stake n s +:+ sdrop n s = s.
Proof.
  revert s. induction n as [|n IH]; intros [|c s]; simpl; try done.
  by rewrite sapp_cons, IH.
Qed.

(** ** Width and locality of [DecodeRune] *)

Lemma decode_width c rest :
  let d := Utf8.DecodeRune (String c rest) in
  (1 <= snd d <= 4)%nat /\ (snd d <= slen (String c rest))%nat.
Proof.
  unfold Utf8.DecodeRune. cbv zeta.
  destruct (Utf8.first (byte_val c)) as [| |sz lo hi] eqn:Hf; simpl; try lia.
  apply first_multi in Hf.
  destruct (S (slen rest) <? sz)%nat eqn:Hlen; simpl; [lia|].
  destruct rest as [|c1 r2]; simpl; [lia|].
  destruct (Utf8.outside lo hi (byte_val c1)); simpl; [lia|].
  destruct (sz <=? 2)%nat; simpl; [lia|].
  destruct r2 as [|c2 r3]; simpl; [lia|].
  destruct (Utf8.outside _ _ (byte_val c2)); simpl; [lia|].
  destruct (sz <=? 3)%nat; simpl; [lia|].
  destruct r3 as [|c3 r4]; simpl; [lia|].
  destruct (Utf8.outside _ _ (byte_val c3)); simpl; lia.
Qed.

Ltac long_enough :=
  match goal with
  | |- context [(?a <? ?sz)%nat] =>
    let E := fresh in
    destruct (a <? sz)%nat eqn:E;
    [apply Nat.ltb_lt in E; simpl in E; lia|]
  end.

(** A valid encoding decodes the same whatever follows it. *)
Lemma decode_local s t :
  s <> EmptyString -> Utf8.is_bad (Utf8.DecodeRune s) = false ->
  Utf8.DecodeRune (stake (snd (Utf8.DecodeRune s)) s +:+ t) = Utf8.DecodeRune s.
Proof.
  destruct s as [|c0 r1]; [done|]. intros _.
  unfold Utf8.DecodeRune at 1 3 4.
  destruct (Utf8.first (byte_val c0)) as [| |sz lo hi] eqn:Hf.
  - intros _. simpl. rewrite ?sapp_cons. unfold Utf8.DecodeRune. by rewrite Hf.
  - done.
  - pose proof (first_multi _ _ _ _ Hf) as Hsz.
    destruct (slen (String c0 r1) <? sz)%nat eqn:Hlen; [done|].
    destruct r1 as [|c1 r2]; [done|].
    destruct (Utf8.outside lo hi (byte_val c1)) eqn:H1; [done|].
    destruct (sz <=? 2)%nat eqn:Hs2.
    { intros _. simpl. rewrite ?sapp_cons. unfold Utf8.DecodeRune.
      rewrite Hf, H1, Hs2. apply Nat.leb_le in Hs2.
      by long_enough. }
    destruct r2 as [|c2 r3]; [done|].
    destruct (Utf8.outside Utf8.locb Utf8.hicb (byte_val c2)) eqn:H2; [done|].
    destruct (sz <=? 3)%nat eqn:Hs3.
    { intros _. simpl. rewrite ?sapp_cons. unfold Utf8.DecodeRune.
      rewrite Hf, H1, Hs2, H2, Hs3. apply Nat.leb_le in Hs3.
      by long_enough. }
    destruct r3 as [|c3 r4]; [done|].
    destruct (Utf8.outside Utf8.locb Utf8.hicb (byte_val c3)) eqn:H3; [done|].
    intros _. simpl. rewrite ?sapp_cons. unfold Utf8.DecodeRune.
    rewrite Hf, H1, Hs2, H2, Hs3, H3.
    by long_enough.
Qed.

(** ** The skipping loops *)

Lemma runes_from_skip k s : Utf8.runes_from k s = Utf8.runes_from 0 (sdrop k s).
Proof.
  revert k. induction s as [|c s IH]; intros [|k]; try done. simpl. apply IH.
Qed.

Lemma valid_from_skip k s : Utf8.valid_from k s = Utf8.valid_from 0 (sdrop k s).
Proof.
  revert k. induction s as [|c s IH]; intros [|k]; try done. simpl. apply IH.
Qed.

Lemma appendString_from_skip k s :
  Json.appendString_from k s = Json.appendString_from 0 (sdrop k s).
Proof.
  revert k. induction s as [|c s IH]; intros [|k]; try done. simpl. apply IH.
Qed.

Lemma lex_skip mode k s t :
  (k <= slen s)%nat -> Json.lex mode k (stake k s +:+ t) = Json.lex mode 0 t.
Proof.
  revert s. induction k as [|k IH]; intros [|c s] H; simpl in *; try done; [lia|].
  rewrite ?sapp_cons. simpl. apply IH. lia.
Qed.

(** [coerce], one rune at a time. *)
Lemma coerce_nil : Utf8.coerce EmptyString = EmptyString.
Proof. reflexivity. Qed.

Lemma coerce_cons c rest :
  let d := Utf8.DecodeRune (String c rest) in
  Utf8.coerce (String c rest)
  = Utf8.EncodeRune (fst d) +:+ Utf8.coerce (sdrop (Nat.pred (snd d)) rest).
Proof.
  unfold Utf8.coerce, Utf8.runes. cbv zeta.
  change (Utf8.runes_from 0 (String c rest))
    with (fst (Utf8.DecodeRune (String c rest))
          :: Utf8.runes_from (Nat.pred (snd (Utf8.DecodeRune (String c rest)))) rest).
  by rewrite runes_from_skip.
Qed.

Lemma valid_cons c rest :
  let d := Utf8.DecodeRune (String c rest) in
  Utf8.ValidString (String c rest)
  = negb (Utf8.is_bad d) && Utf8.ValidString (sdrop (Nat.pred (snd d)) rest).
Proof.
  unfold Utf8.ValidString. cbv zeta.
  change (Utf8.valid_from 0 (String c rest))
    with (negb (Utf8.is_bad (Utf8.DecodeRune (String c rest)))
          && Utf8.valid_from (Nat.pred (snd (Utf8.DecodeRune (String c rest)))) rest).
  by rewrite valid_from_skip.
Qed.

(** Valid UTF-8 is left unchanged by the coercion. *)
Lemma coerce_valid s : Utf8.ValidString s = true -> Utf8.coerce s = s.
Proof.
  remember (slen s) as n eqn:Hn. revert s Hn.
  induction n as [n IH] using lt_wf_ind. intros [|c rest] Hn Hv; [done|].
  rewrite valid_cons in Hv. cbv zeta in Hv.
  apply andb_true_iff in Hv as [Hbad Hv]. apply negb_true_iff in Hbad.
  rewrite coerce_cons. cbv zeta.
  destruct (decode_width c rest) as [Hw Hl]. cbv zeta in Hw, Hl.
  destruct (Utf8.DecodeRune (String c rest)) as [r w] eqn:Hd. simpl in *.
  rewrite (encode_decode _ _ _ Hd Hbad) by done.
  rewrite (IH (slen (sdrop (Nat.pred w) rest))); [| |done|done].
  - destruct w as [|w]; [lia|]. simpl. rewrite ?sapp_cons. by rewrite stake_sdrop.
  - rewrite slen_sdrop. subst n. lia.
Qed.

(** ** Reading back what [appendString] wrote *)

(** The escape of one ASCII byte is read back as that byte. *)
Lemma lex_escape_ascii c Y acc :
  byte_val c < 0x80 ->
  Json.lex (Some acc) 0 (Json.escape_ascii c +:+ Y)
  = Json.lex (Some (acc +:+ String c EmptyString)) 0 Y.
Proof.
  intros H.
  destruct c as [[] [] [] [] [] [] [] []]; try (by vm_compute in H); reflexivity.
Qed.

Lemma appendString_from_cons c rest :
  Json.appendString_from 0 (String c rest) =
  if byte_val c <? Utf8.RuneSelf then
    Json.escape_ascii c +:+ Json.appendString_from 0 rest
  else
    let d := Utf8.DecodeRune (String c rest) in
    if Utf8.is_bad d then
      String backslash "ufffd" +:+ Json.appendString_from 0 rest
    else if (fst d =? 0x2028) || (fst d =? 0x2029) then
      String backslash "u202"
        +:+ String (Json.hex_digit (N.land (fst d) 0xF))
              (Json.appendString_from 0 (sdrop (Nat.pred (snd d)) rest))
    else
      stake (snd d) (String c rest)
        +:+ Json.appendString_from 0 (sdrop (Nat.pred (snd d)) rest).
Proof.
  cbv zeta. rewrite <- !appendString_from_skip. reflexivity.
Qed.

Lemma decode_ascii c rest :
  byte_val c < 0x80 -> Utf8.DecodeRune (String c rest) = (byte_val c, 1%nat).
Proof.
  intros H. unfold Utf8.DecodeRune. by rewrite (proj2 (first_ascii _) H).
Qed.

Lemma encode_ascii c : byte_val c < 0x80 -> Utf8.EncodeRune (byte_val c) = String c EmptyString.
Proof.
  intros H. unfold Utf8.EncodeRune.
  replace (byte_val c <=? 0x7F) with true by (symmetry; apply N.leb_le; lia).
  by rewrite byte_of_val.
Qed.

(** Inside a string literal, a byte that is not ASCII starts a rune that is
    decoded and encoded again. *)
Lemma lex_rune acc c Y :
  0x80 <= byte_val c ->
  Json.lex (Some acc) 0 (String c Y)
  = let d := Utf8.DecodeRune (String c Y) in
    Json.lex (Some (acc +:+ Utf8.EncodeRune (fst d))) (Nat.pred (snd d)) Y.
Proof.
  intros H. simpl. unfold Utf8.RuneSelf.
  replace (byte_val c =? 0x5C) with false by (symmetry; apply N.eqb_neq; lia).
  replace (byte_val c =? 0x22) with false by (symmetry; apply N.eqb_neq; lia).
  replace (byte_val c <? 0x20) with false by (symmetry; apply N.ltb_ge; lia).
  replace (byte_val c <? 0x80) with false by (symmetry; apply N.ltb_ge; lia).
  reflexivity.
Qed.

(** The body of a literal written by [appendString] followed by the closing
    quote is read back as the coerced string. *)
Lemma lex_string_body s : forall acc X,
  Json.lex (Some acc) 0 (Json.appendString_from 0 s +:+ String dquote X)
  = cons (Json.TString (acc +:+ Utf8.coerce s)) <$> Json.lex None 0 X.
Proof.
  remember (slen s) as n eqn:Hn. revert s Hn.
  induction n as [n IH] using lt_wf_ind. intros [|c rest] Hn acc X.
  { rewrite coerce_nil, sapp_nil_r. reflexivity. }
  rewrite appendString_from_cons, coerce_cons. cbv zeta.
  destruct (decode_width c rest) as [Hw Hl]. cbv zeta in Hw, Hl.
  assert (forall k, slen (sdrop k rest) < n)%nat as Hshort
    by (intros k; rewrite slen_sdrop; subst n; simpl; lia).
  destruct (byte_val c <? Utf8.RuneSelf) eqn:Hascii.
  { apply N.ltb_lt in Hascii. unfold Utf8.RuneSelf in Hascii.
    rewrite sapp_assoc, lex_escape_ascii by done.
    rewrite decode_ascii by done. simpl.
    rewrite (IH _ (Hshort 0%nat) rest eq_refl).
    by rewrite encode_ascii, sapp_assoc by done. }
  apply N.ltb_ge in Hascii. unfold Utf8.RuneSelf in Hascii.
  destruct (Utf8.DecodeRune (String c rest)) as [r w] eqn:Hd. simpl in Hw, Hl.
  simpl fst; simpl snd.
  destruct (Utf8.is_bad (r, w)) eqn:Hbad.
  { unfold Utf8.is_bad in Hbad. apply andb_true_iff in Hbad as [Hr Hw1].
    apply N.eqb_eq in Hr. apply Nat.eqb_eq in Hw1. simpl in Hr, Hw1. subst r w.
    rewrite sapp_assoc.
    change (Json.lex (Some acc) 0 (String backslash "ufffd" +:+ ?Z))
      with (Json.lex (Some (acc +:+ Utf8.EncodeRune Utf8.RuneError)) 0 Z).
    rewrite (IH _ (Hshort 0%nat) rest eq_refl). by rewrite sapp_assoc. }
  destruct ((r =? 0x2028) || (r =? 0x2029)) eqn:Hsep.
  { transitivity (Json.lex (Some (acc +:+ Utf8.EncodeRune r)) 0
                    (Json.appendString_from 0 (sdrop (Nat.pred w) rest)
                     +:+ String dquote X)).
    { apply orb_true_iff in Hsep as [->%N.eqb_eq | ->%N.eqb_eq]; reflexivity. }
    rewrite (IH _ (Hshort (Nat.pred w)) _ eq_refl). by rewrite sapp_assoc. }
  rewrite sapp_assoc.
  destruct w as [|w]; [lia|]. simpl stake. rewrite sapp_cons.
  rewrite lex_rune by done. cbv zeta.
  assert (Utf8.DecodeRune
            (String c (stake w rest +:+
                       (Json.appendString_from 0 (sdrop (Nat.pred (S w)) rest)
                        +:+ String dquote X)))
          = (r, S w)) as ->.
  { pose proof (decode_local (String c rest)
                  (Json.appendString_from 0 (sdrop (Nat.pred (S w)) rest)
                   +:+ String dquote X)) as Hloc.
    rewrite Hd in Hloc. simpl in Hloc. rewrite ?sapp_cons in Hloc.
    by apply Hloc. }
  simpl fst; simpl snd. simpl Nat.pred.
  rewrite lex_skip by (simpl in Hl; lia).
  rewrite (IH _ (Hshort w) _ eq_refl). by rewrite sapp_assoc.
Qed.

(** A literal written by [appendString] is read back as one string token
    holding the coerced string. *)
Lemma lex_appendString s X :
  Json.lex None 0 (Json.appendString s +:+ X)
  = cons (Json.TString (Utf8.coerce s)) <$> Json.lex None 0 X.
Proof.
  unfold Json.appendString. rewrite sapp_cons, sapp_assoc.
  change (Json.lex None 0 (String dquote ?Z)) with (Json.lex (Some EmptyString) 0 Z).
  rewrite sapp_cons, sapp_nil_l. by rewrite lex_string_body.
Qed.

(** ** Reading back what [MarshalIndent] wrote *)

Lemma lex_member_line m k X :
  Json.lex None 0 (Json.member_line m k +:+ X)
  = member_tokens m k <$> Json.lex None 0 X.
Proof.
  unfold Json.member_line. rewrite !sapp_assoc.
  change (Json.lex None 0 ("  " +:+ ?Z)) with (Json.lex None 0 Z).
  rewrite lex_appendString.
  change (Json.lex None 0 (": " +:+ ?Z)) with (cons Json.TColon <$> Json.lex None 0 Z).
  rewrite lex_appendString.
  by destruct (Json.lex None 0 X).
Qed.

Lemma lex_members m k ks :
  Json.lex None 0
    (String.concat ("," +:+ nl) (map (Json.member_line m) (k :: ks)) +:+ nl +:+ "}")
  = Some (members_tokens m (k :: ks)).
Proof.
  revert k. induction ks as [|k' ks IH]; intros k.
  - change (String.concat ("," +:+ nl) (map (Json.member_line m) [k]))
      with (Json.member_line m k).
    by rewrite lex_member_line.
  - change (String.concat ("," +:+ nl) (map (Json.member_line m) (k :: k' :: ks)))
      with (Json.member_line m k +:+ ("," +:+ nl)
            +:+ String.concat ("," +:+ nl) (map (Json.member_line m) (k' :: ks))).
    rewrite !sapp_assoc, lex_member_line.
    change (Json.lex None 0 ("," +:+ nl +:+ ?Z))
      with (cons Json.TComma <$> Json.lex None 0 Z).
    by rewrite IH.
Qed.

Lemma parse_member_comma m k rest acc :
  Json.parse_members (member_tokens m k (Json.TComma :: rest)) acc
  = Json.parse_members rest (put_member m acc k).
Proof. reflexivity. Qed.

Lemma parse_members_tokens m k ks acc :
  Json.parse_members (members_tokens m (k :: ks)) acc
  = Some (foldl (put_member m) acc (k :: ks)).
Proof.
  revert k acc. induction ks as [|k' ks IH]; intros k acc; [done|].
  change (members_tokens m (k :: k' :: ks))
    with (member_tokens m k (Json.TComma :: members_tokens m (k' :: ks))).
  by rewrite parse_member_comma, IH.
Qed.

Lemma Unmarshal_members s t ts m' :
  Json.lex None 0 s = Some (Json.TLBrace :: Json.TString t :: Json.TColon :: ts) ->
  Json.parse_members (Json.TString t :: Json.TColon :: ts) ∅ = Some m' ->
  Json.Unmarshal s = Json.UMap m'.
Proof. unfold Json.Unmarshal. intros -> Hp. by rewrite Hp. Qed.

(** Decoding the document written for [m] succeeds and gives [reloaded m]. *)
Lemma Unmarshal_MarshalIndent m :
  Json.Unmarshal (Json.MarshalIndent m) = Json.UMap (reloaded m).
Proof.
  unfold Json.MarshalIndent, reloaded.
  destruct (Json.sorted_keys m) as [|k ks] eqn:Hks; [done|].
  assert (exists t ts, members_tokens m (k :: ks) = Json.TString t :: Json.TColon :: ts)
    as (t & ts & Hts) by (destruct ks; simpl; eauto).
  apply (Unmarshal_members _ t ts).
  - change (Json.lex None 0 ("{" +:+ nl +:+ ?Z))
      with (cons Json.TLBrace <$> Json.lex None 0 Z).
    by rewrite lex_members, Hts.
  - rewrite <- Hts. apply parse_members_tokens.
Qed.

(** ** Sorted keys *)

Lemma sorted_keys_perm m : Json.sorted_keys m ≡ₚ elements (dom m).
Proof. apply merge_sort_Permutation. Qed.

Lemma sorted_keys_sorted m : StronglySorted String.le (Json.sorted_keys m).
Proof. apply StronglySorted_merge_sort; apply _. Qed.

Lemma sorted_keys_NoDup m : NoDup (Json.sorted_keys m).
Proof. rewrite sorted_keys_perm. apply NoDup_elements. Qed.

Lemma elem_of_sorted_keys m k : k ∈ Json.sorted_keys m <-> is_Some (m !! k).
Proof. by rewrite sorted_keys_perm, elem_of_elements, elem_of_dom. Qed.

(** The sorted list of a set of keys does not depend on how it was
    enumerated. *)
Lemma sort_strings_unique (l1 l2 : list string) :
  l1 ≡ₚ l2 -> merge_sort String.le l1 = merge_sort String.le l2.
Proof.
  intros Hp. apply (Sorted_unique String.le).
  - apply Sorted_merge_sort; apply _.
  - apply Sorted_merge_sort; apply _.
  - by rewrite !merge_sort_Permutation.
Qed.

(** ** Maps built key by key *)

Lemma lookup_foldl_insert (f : string -> string) ks (acc : gmap string string) i :
  foldl (fun a k => <[k := f k]> a) acc ks !! i
  = if decide (i ∈ ks) then Some (f i) else acc !! i.
Proof.
  revert acc. induction ks as [|k ks IH]; intros acc.
  - case_decide as Hin; [by apply elem_of_nil in Hin|done].
  - simpl foldl. rewrite IH.
    destruct (decide (i ∈ ks)) as [Hin|Hnin].
    + rewrite decide_True; [done|by apply list_elem_of_further].
    + destruct (decide (i = k)) as [->|Hne].
      * rewrite decide_True by apply list_elem_of_here. by rewrite lookup_insert_eq.
      * rewrite decide_False; [by rewrite lookup_insert_ne|].
        by intros [?|?]%elem_of_cons.
Qed.

(** Copying a map key by key, over any enumeration of its keys, gives the
    map back. *)
Lemma copy_by_keys (data : gmap string string) ks :
  ks ≡ₚ elements (dom data) ->
  foldl (fun a k => <[k := default EmptyString (data !! k)]> a) ∅ ks = data.
Proof.
  intros Hp. apply map_eq. intros i.
  rewrite (lookup_foldl_insert (fun k => default EmptyString (data !! k))).
  destruct (decide (i ∈ ks)) as [Hin|Hnin].
  - rewrite Hp, elem_of_elements, elem_of_dom in Hin. destruct Hin as [v ->]. done.
  - rewrite Hp, elem_of_elements, elem_of_dom in Hnin. rewrite lookup_empty.
    symmetry. by apply eq_None_not_Some.
Qed.

Lemma foldl_ext_in {A B} (f g : A -> B -> A) (l : list B) (a : A) :
  (forall x y, y ∈ l -> f x y = g x y) -> foldl f a l = foldl g a l.
Proof.
  revert a. induction l as [|y l IH]; intros a H; simpl; [done|].
  rewrite H by apply list_elem_of_here. apply IH. intros. apply H.
  by apply list_elem_of_further.
Qed.

(** ** What a saved catalog loads back as *)

(** A catalog of valid UTF-8 strings is read back unchanged. *)
Lemma reloaded_valid m : valid_catalog m -> reloaded m = m.
Proof.
  intros Hv. unfold reloaded.
  rewrite (foldl_ext_in _ (fun a k => <[k := default EmptyString (m !! k)]> a)).
  - apply copy_by_keys, sorted_keys_perm.
  - intros acc k [v Hk]%elem_of_sorted_keys. unfold put_member. rewrite Hk. simpl.
    destruct (Hv k v Hk) as [H1 H2]. by rewrite !coerce_valid.
Qed.

Lemma dom_foldl_put m ks acc :
  dom (foldl (put_member m) acc ks) = dom acc ∪ list_to_set (Utf8.coerce <$> ks).
Proof.
  revert acc. induction ks as [|k ks IH]; intros acc.
  - simpl. by rewrite (right_id_L ∅ (∪)).
  - simpl foldl. rewrite IH, fmap_cons, list_to_set_cons.
    replace (dom (put_member m acc k)) with ({[Utf8.coerce k]} ∪ dom acc)
      by (unfold put_member; by rewrite dom_insert_L).
    by rewrite (comm_L (∪) {[Utf8.coerce k]} (dom acc)), (assoc_L (∪)).
Qed.

(** The keys read back are the coerced keys: they depend on the key set of
    the catalog only. *)
Lemma dom_reloaded m : dom (reloaded m) = set_map Utf8.coerce (dom m).
Proof.
  unfold reloaded. rewrite dom_foldl_put, dom_empty_L, (left_id_L ∅ (∪)).
  unfold set_map. apply set_eq. intros x.
  rewrite !elem_of_list_to_set, !list_elem_of_fmap.
  by setoid_rewrite sorted_keys_perm.
Qed.

(** [saveJSON] marshals its argument, whatever the order of [range]. *)
Lemma jsonBytes_ranging_spec ranged data :
  ranged ≡ₚ elements (dom data) ->
  jsonBytes_ranging ranged data = Json.MarshalIndent data.
Proof.
  intros Hp. unfold jsonBytes_ranging. f_equal.
  apply copy_by_keys. by rewrite merge_sort_Permutation.
Qed.

(** ** The catalog store on a world *)

Lemma loadJSON_spec path w : loadJSON path w = (catalog w path, w).
Proof.
  unfold catalog, loadJSON, bind, ReadFile.
  destruct (files w !! path) as [f|]; simpl; [|done].
  destruct (f_readable f); simpl; [|done].
  by destruct (Json.Unmarshal (f_data f)).
Qed.

Lemma catalog_unfold w path :
  catalog w path =
  match files w !! path with
  | Some f =>
    if f_readable f then
      match Json.Unmarshal (f_data f) with
      | Json.UMap data => data
      | _ => ∅
      end
    else ∅
  | None => ∅
  end.
Proof.
  unfold catalog, loadJSON, bind, ReadFile.
  destruct (files w !! path) as [f|]; simpl; [|done].
  destruct (f_readable f); simpl; [|done].
  by destruct (Json.Unmarshal (f_data f)).
Qed.

Lemma saveJSON_ranging_spec ranged path data w :
  saveJSON_ranging ranged path data w =
  match save_error w path with
  | Some e => (Some e, w)
  | None => (None, written path (jsonBytes_ranging ranged data) w)
  end.
Proof.
  unfold saveJSON_ranging, save_error, written, readable_or_absent, bind, MkdirAll,
    WriteFile, ret. simpl.
  destruct (mkdir_error w (Filepath.Dir path)); simpl; [done|].
  destruct (files w !! path) as [f|]; simpl.
  - by destruct (f_writable f).
  - by destruct (can_create w).
Qed.

Lemma saveJSON_spec path data w :
  saveJSON path data w =
  match save_error w path with
  | Some e => (Some e, w)
  | None => (None, written path (Json.MarshalIndent data) w)
  end.
Proof.
  unfold saveJSON. rewrite saveJSON_ranging_spec.
  by rewrite jsonBytes_ranging_spec.
Qed.

Lemma catalog_written path bytes w :
  readable_or_absent w path = true ->
  catalog (written path bytes w) path =
  match Json.Unmarshal bytes with
  | Json.UMap data => data
  | _ => ∅
  end.
Proof.
  intros Hr. rewrite catalog_unfold. unfold written. simpl.
  rewrite lookup_insert_eq. simpl. by rewrite Hr.
Qed.

Lemma catalog_written_ne path path' bytes w :
  path <> path' -> catalog (written path bytes w) path' = catalog w path'.
Proof.
  intros Hne. rewrite !catalog_unfold. unfold written. simpl.
  by rewrite lookup_insert_ne.
Qed.

(** ** C6 and C7: the catalog store *)

(** The strict byte order on keys. *)
Lemma le_ne_ltb (a b : string) : String.le a b -> a <> b -> String.ltb a b = true.
Proof.
  unfold String.le, String.leb, String.ltb. intros Hle Hne.
  destruct (String.compare a b) eqn:Hc; try done.
  by apply String.compare_eq_iff in Hc.
Qed.

Lemma sorted_keys_ascending m :
  StronglySorted (fun a b => String.ltb a b = true) (Json.sorted_keys m).
Proof.
  pose proof (sorted_keys_sorted m) as Hs. pose proof (sorted_keys_NoDup m) as Hn.
  induction Hs as [|k ks Hs IH Hall]; [constructor|].
  apply NoDup_cons in Hn as [Hk Hn]. constructor; [by apply IH|].
  rewrite Forall_forall in Hall |- *. intros x Hx.
  apply le_ne_ltb; [by apply Hall|]. intros ->. done.
Qed.

(** In general, a catalog that was saved loads back coerced to valid
    UTF-8. *)
Lemma load_after_save w path data :
  fst (saveJSON path data w) = None ->
  readable_or_absent w path = true ->
  fst (loadJSON path (snd (saveJSON path data w))) = reloaded data.
Proof.
  rewrite saveJSON_spec. destruct (save_error w path); [done|]. intros _ Hr.
  simpl. rewrite loadJSON_spec. simpl.
  by rewrite catalog_written, Unmarshal_MarshalIndent.
Qed.

(** C6 (as amended): for every flat string-to-string mapping whose keys and
    values are valid UTF-8, if [saveJSON] returns no error and the file it
    wrote is not read-protected, [loadJSON] of the same path returns a
    mapping equal to the original. *)
Theorem C6_save_load_roundtrip (w : world) (path : string) (data : gmap string string) :
  valid_catalog data ->
  fst (saveJSON path data w) = None ->
  readable_or_absent w path = true ->
  fst (loadJSON path (snd (saveJSON path data w))) = data.
Proof.
  intros Hv Hs Hr. rewrite load_after_save by done. by apply reloaded_valid.
Qed.

Lemma two_keys_valid : valid_catalog two_keys.
Proof.
  intros k v. unfold two_keys.
  rewrite lookup_insert. case_decide as Hb.
  - intros [= <-]. by subst k.
  - rewrite lookup_insert. case_decide as Ha; [|by rewrite lookup_empty].
    intros [= <-]. by subst k.
Defined.

Lemma C6_witness :
  fst (loadJSON en_path (snd (saveJSON en_path two_keys empty_world))) = two_keys.
Proof.
  apply (C6_save_load_roundtrip empty_world en_path two_keys).
  - exact two_keys_valid.
  - vm_compute. reflexivity.
  - vm_compute. reflexivity.
Defined.

(** C6, as stated, fails on a value that is not valid UTF-8: the byte 0xFF
    is written as the escape of U+FFFD and loads back as the three bytes of
    that rune. *)
Lemma C6_counterexample :
  let data : gmap string string := <["k" := invalid_text]> ∅ in
  fst (saveJSON en_path data empty_world) = None /\
  fst (loadJSON en_path (snd (saveJSON en_path data empty_world))) !! "k"
    = Some "�" /\
  fst (loadJSON en_path (snd (saveJSON en_path data empty_world))) <> data.
Proof.
  cbv zeta. split; [by vm_compute|]. split; [by vm_compute|].
  intros H. apply (f_equal (fun m : gmap string string => m !! "k")) in H.
  vm_compute in H. discriminate H.
Qed.

(** The round trip also needs the written file to be readable: a
    read-protected [km.json] is written and still loads as
    empty. *)
Example roundtrip_needs_readable :
  fst (saveJSON km_path hello_catalog unreadable_world) = None
  /\ fst (loadJSON km_path (snd (saveJSON km_path hello_catalog unreadable_world))) = ∅.
Proof. split; vm_compute; reflexivity. Qed.




(** C8: [loadJSON] has no error result; when the file is absent, cannot be
    read, or holds bytes that [json.Unmarshal] rejects for
    [map[string]string], it returns the empty catalog and leaves the world
    as it was. *)
Theorem C8_load_never_fails (w : world) (path : string) :
  files w !! path = None
  \/ (exists f, files w !! path = Some f /\ f_readable f = false)
  \/ (exists f, files w !! path = Some f /\ Json.Unmarshal (f_data f) = Json.UErr) ->
  loadJSON path w = (∅, w).
Proof.
  intros H. rewrite loadJSON_spec. f_equal. rewrite catalog_unfold.
  destruct H as [->|[(f & -> & ->)|(f & -> & ->)]]; try done.
  by destruct (f_readable f).
Qed.

Lemma C8_witness : loadJSON en_path broken_world = (∅, broken_world).
Proof.
  apply (C8_load_never_fails broken_world en_path).
  right. right. exists (File "[1, 2" true true). split; vm_compute; reflexivity.
Defined.

(** The store is lenient where the decoder is: a [null] value is not an
    error, it leaves the empty string under its key. *)
Example load_null_value :
  Json.Unmarshal ("{" +:+ String dquote "a" +:+ String dquote ": null}")
  = Json.UMap (<["a" := EmptyString]> ∅).
Proof. vm_compute. reflexivity. Qed.

Example load_rejects_number :
  Json.Unmarshal ("{" +:+ String dquote "a" +:+ String dquote ": 1}") = Json.UErr.
Proof. vm_compute. reflexivity. Qed.

Example load_rejects_nested :
  Json.Unmarshal ("{" +:+ String dquote "a" +:+ String dquote ": {}}") = Json.UErr.
Proof. vm_compute. reflexivity. Qed.

(** ** C9 and C10: the translation response *)





Example parse_hello :
  parse_response (Document (Json.JArray
    [Json.JArray [Json.JArray [Json.JString " Bon"; Json.JNumber "1"];
                  Json.JNull;
                  Json.JArray [Json.JString "jour  "; Json.JString "Hello"]];
     Json.JNull])) = Ok "Bonjour".
Proof. vm_compute. reflexivity. Qed.

(** *** The world under [saveJSON] and [println] *)

Lemma save_error_set_stdout out w path :
  save_error (set_stdout out w) path = save_error w path.
Proof. reflexivity. Qed.

Lemma catalog_set_stdout out w path : catalog (set_stdout out w) path = catalog w path.
Proof. by rewrite !catalog_unfold. Qed.

Lemma saved_set_stdout out w path data :
  saved path data (set_stdout out w) = set_stdout out (saved path data w).
Proof.
  unfold saved. rewrite !saveJSON_spec, save_error_set_stdout.
  by destruct (save_error w path).
Qed.

(** [processAddOrUpdate] for the reference language. *)
Lemma processAddOrUpdate_english path key value langCode w :
  processAddOrUpdate path key value true langCode w
  = (tt, set_stdout (stdout w ++ [LStatusOk (Filepath.Base path) value])
           (saved path (<[key := value]> (catalog w path)) w)).
Proof.
  unfold processAddOrUpdate, bind. rewrite loadJSON_spec. simpl.
  unfold println, saved. simpl. f_equal. f_equal.
  rewrite saveJSON_spec. by destruct (save_error w path).
Qed.

Lemma googleTranslate_world text lang w : snd (googleTranslate text lang w) = w.
Proof.
  unfold googleTranslate. destruct (http_get w lang text) as [|status body]; [done|].
  destruct (negb _); [done|]. by destruct body.
Qed.

Lemma processAddOrUpdate_other path key value langCode w :
  processAddOrUpdate path key value false langCode w
  = (tt, set_stdout
           (stdout w
            ++ match fst (googleTranslate value langCode w) with
               | Err err => [LTranslationFailed (Filepath.Base path) err]
               | Ok _ => []
               end
            ++ [LStatusOk (Filepath.Base path) (translated_or_value w value langCode)])
           (saved path (<[key := translated_or_value w value langCode]> (catalog w path)) w)).
Proof.
  unfold processAddOrUpdate, bind, translated_or_value. rewrite loadJSON_spec. simpl.
  rewrite googleTranslate_world.
  destruct (fst (googleTranslate value langCode w)) as [tr|err]; simpl.
  - unfold println, saved. simpl. f_equal. f_equal.
    rewrite saveJSON_spec. by destruct (save_error w path).
  - unfold println. simpl. f_equal.
    fold (saved path (<[key:=value]> (catalog w path))
            (set_stdout (stdout w ++ [LTranslationFailed (Filepath.Base path) err]) w)).
    rewrite saved_set_stdout. simpl.
    unfold set_stdout. simpl. by rewrite <- app_assoc.
Qed.

(** ** Decoded strings are valid UTF-8 *)

Lemma byte_val_of n : n < 256 -> byte_val (byte_of n) = n.
Proof. apply N_ascii_embedding. Qed.

Lemma sdrop_app n s t : (n <= slen s)%nat -> sdrop n (s +:+ t) = sdrop n s +:+ t.
Proof.
  revert s. induction n as [|n IH]; intros [|c s] H; simpl in *; try done; [lia|].
  rewrite ?sapp_cons. simpl. apply IH. lia.
Qed.

Lemma valid_ascii c : byte_val c < 0x80 -> Utf8.ValidString (String c EmptyString) = true.
Proof.
  intros H. rewrite valid_cons. cbv zeta. rewrite decode_ascii by done.
  unfold Utf8.is_bad. simpl.
  by replace (byte_val c =? Utf8.RuneError) with false
    by (symmetry; apply N.eqb_neq; unfold Utf8.RuneError; lia).
Qed.

Lemma valid_app a b :
  Utf8.ValidString a = true -> Utf8.ValidString b = true ->
  Utf8.ValidString (a +:+ b) = true.
Proof.
  remember (slen a) as n eqn:Hn. revert a Hn.
  induction n as [n IH] using lt_wf_ind. intros [|c rest] Hn Ha Hb; [done|].
  rewrite valid_cons in Ha. cbv zeta in Ha.
  apply andb_true_iff in Ha as [Hbad Ha]. apply negb_true_iff in Hbad.
  destruct (decode_width c rest) as [Hw Hl]. cbv zeta in Hw, Hl.
  pose proof (decode_local (String c rest)
                (sdrop (snd (Utf8.DecodeRune (String c rest))) (String c rest) +:+ b))
    as Hloc.
  rewrite <- sapp_assoc, stake_sdrop in Hloc. specialize (Hloc ltac:(done) Hbad).
  rewrite sapp_cons, valid_cons. cbv zeta.
  rewrite <- sapp_cons, Hloc, Hbad. simpl negb. rewrite andb_true_l.
  simpl in Hl. rewrite sdrop_app by lia.
  apply (IH (slen (sdrop (Nat.pred (snd (Utf8.DecodeRune (String c rest)))) rest)));
    try done.
  rewrite slen_sdrop. subst n. simpl. lia.
Qed.

Ltac first_class :=
  unfold Utf8.first;
  repeat match goal with
         | |- context [?a <? ?b] =>
           first [ replace (a <? b) with true by (symmetry; apply N.ltb_lt; lia)
                 | replace (a <? b) with false by (symmetry; apply N.ltb_ge; lia) ]
         | |- context [?a =? ?b] =>
           first [ replace (a =? b) with true by (symmetry; apply N.eqb_eq; lia)
                 | replace (a =? b) with false by (symmetry; apply N.eqb_neq; lia) ]
         end.

Ltac wide_rune :=
  unfold Utf8.is_bad; simpl; rewrite andb_false_r; reflexivity.

Lemma inside lo hi b : lo <= b <= hi -> Utf8.outside lo hi b = false.
Proof. by intros ?%outside_false. Qed.

Lemma valid2 c0 c1 :
  0xC2 <= byte_val c0 < 0xE0 -> 0x80 <= byte_val c1 <= 0xBF ->
  Utf8.ValidString (String c0 (String c1 EmptyString)) = true.
Proof.
  intros H0 H1. rewrite valid_cons. cbv zeta. unfold Utf8.DecodeRune.
  replace (Utf8.first (byte_val c0)) with (Utf8.LMulti 2 0x80 0xBF)
    by (symmetry; first_class; done).
  simpl. rewrite inside by done. wide_rune.
Qed.

Lemma valid3 c0 c1 c2 :
  0xE0 <= byte_val c0 < 0xF0 ->
  (if byte_val c0 =? 0xE0 then 0xA0 else 0x80) <= byte_val c1
    <= (if byte_val c0 =? 0xED then 0x9F else 0xBF) ->
  0x80 <= byte_val c2 <= 0xBF ->
  Utf8.ValidString (String c0 (String c1 (String c2 EmptyString))) = true.
Proof.
  intros H0 H1 H2. rewrite valid_cons. cbv zeta. unfold Utf8.DecodeRune.
  destruct (byte_val c0 =? 0xE0) eqn:E0; [apply N.eqb_eq in E0|apply N.eqb_neq in E0].
  { replace (Utf8.first (byte_val c0)) with (Utf8.LMulti 3 0xA0 0xBF)
      by (symmetry; first_class; done).
    replace (byte_val c0 =? 0xED) with false in H1 by (symmetry; apply N.eqb_neq; lia).
    simpl. rewrite inside by done. rewrite inside by done. wide_rune. }
  destruct (byte_val c0 =? 0xED) eqn:ED; [apply N.eqb_eq in ED|apply N.eqb_neq in ED].
  { replace (Utf8.first (byte_val c0)) with (Utf8.LMulti 3 0x80 0x9F)
      by (symmetry; first_class; done).
    simpl. rewrite inside by done. rewrite inside by done. wide_rune. }
  replace (Utf8.first (byte_val c0)) with (Utf8.LMulti 3 0x80 0xBF)
    by (symmetry; first_class; done).
  simpl. rewrite inside by done. rewrite inside by done. wide_rune.
Qed.

Lemma valid4 c0 c1 c2 c3 :
  0xF0 <= byte_val c0 <= 0xF4 ->
  (if byte_val c0 =? 0xF0 then 0x90 else 0x80) <= byte_val c1
    <= (if byte_val c0 =? 0xF4 then 0x8F else 0xBF) ->
  0x80 <= byte_val c2 <= 0xBF -> 0x80 <= byte_val c3 <= 0xBF ->
  Utf8.ValidString (String c0 (String c1 (String c2 (String c3 EmptyString)))) = true.
Proof.
  intros H0 H1 H2 H3. rewrite valid_cons. cbv zeta. unfold Utf8.DecodeRune.
  destruct (byte_val c0 =? 0xF0) eqn:E0; [apply N.eqb_eq in E0|apply N.eqb_neq in E0].
  { replace (Utf8.first (byte_val c0)) with (Utf8.LMulti 4 0x90 0xBF)
      by (symmetry; first_class; done).
    replace (byte_val c0 =? 0xF4) with false in H1 by (symmetry; apply N.eqb_neq; lia).
    simpl. rewrite !inside by done. wide_rune. }
  destruct (byte_val c0 =? 0xF4) eqn:E4; [apply N.eqb_eq in E4|apply N.eqb_neq in E4].
  { replace (Utf8.first (byte_val c0)) with (Utf8.LMulti 4 0x80 0x8F)
      by (symmetry; first_class; done).
    simpl. rewrite !inside by done. wide_rune. }
  replace (Utf8.first (byte_val c0)) with (Utf8.LMulti 4 0x80 0xBF)
    by (symmetry; first_class; done).
  simpl. rewrite !inside by done. wide_rune.
Qed.

(** Every rune is encoded as valid UTF-8. *)
Lemma encode_valid r : Utf8.ValidString (Utf8.EncodeRune r) = true.
Proof.
  unfold Utf8.EncodeRune.
  destruct (r <=? 0x7F) eqn:H1.
  { apply N.leb_le in H1. apply valid_ascii. rewrite byte_val_of; lia. }
  apply N.leb_gt in H1.
  destruct (r <=? 0x7FF) eqn:H2.
  { apply N.leb_le in H2. bits_arith.
    apply valid2; rewrite byte_val_of; lia. }
  apply N.leb_gt in H2.
  destruct ((Utf8.MaxRune <? r)
            || ((Utf8.surrogateMin <=? r) && (r <=? Utf8.surrogateMax))) eqn:H3;
    [reflexivity|].
  apply orb_false_iff in H3 as [Hmax Hsur]. apply N.ltb_ge in Hmax.
  unfold Utf8.MaxRune in Hmax.
  assert (~ (0xD800 <= r <= 0xDFFF)) as Hns.
  { intros [Ha Hb]. apply andb_false_iff in Hsur as [Hs|Hs]; apply N.leb_gt in Hs;
      unfold Utf8.surrogateMin, Utf8.surrogateMax in Hs; lia. }
  clear Hsur.
  destruct (r <=? 0xFFFF) eqn:H4.
  { apply N.leb_le in H4. unfold Utf8.str3. bits_arith.
    assert (byte_val (byte_of (0xE0 + r / 4096)) = 0xE0 + r / 4096) as E0
      by (rewrite byte_val_of; lia).
    assert (byte_val (byte_of (0x80 + (r / 64) mod 64)) = 0x80 + (r / 64) mod 64) as E1
      by (rewrite byte_val_of; lia).
    assert (byte_val (byte_of (0x80 + r mod 64)) = 0x80 + r mod 64) as E2
      by (rewrite byte_val_of; lia).
    apply valid3; rewrite ?E0, ?E1, ?E2; try lia.
    destruct (_ =? 0xE0) eqn:Ea; [apply N.eqb_eq in Ea|apply N.eqb_neq in Ea];
      (destruct (_ =? 0xED) eqn:Ed; [apply N.eqb_eq in Ed|apply N.eqb_neq in Ed]);
      lia. }
  apply N.leb_gt in H4. unfold Utf8.str3. bits_arith.
  assert (byte_val (byte_of (0xF0 + r / 262144)) = 0xF0 + r / 262144) as E0
    by (rewrite byte_val_of; lia).
  assert (byte_val (byte_of (0x80 + (r / 4096) mod 64)) = 0x80 + (r / 4096) mod 64) as E1
    by (rewrite byte_val_of; lia).
  assert (byte_val (byte_of (0x80 + (r / 64) mod 64)) = 0x80 + (r / 64) mod 64) as E2
    by (rewrite byte_val_of; lia).
  assert (byte_val (byte_of (0x80 + r mod 64)) = 0x80 + r mod 64) as E3
    by (rewrite byte_val_of; lia).
  apply valid4; rewrite ?E0, ?E1, ?E2, ?E3; try lia.
  destruct (_ =? 0xF0) eqn:Ea; [apply N.eqb_eq in Ea|apply N.eqb_neq in Ea];
    (destruct (_ =? 0xF4) eqn:Ed; [apply N.eqb_eq in Ed|apply N.eqb_neq in Ed]);
    lia.
Qed.

Lemma string_step_valid s bytes k :
  Json.string_step s = Json.Emit bytes k -> Utf8.ValidString bytes = true.
Proof.
  destruct s as [|c rest]; [done|]. unfold Json.string_step.
  destruct (byte_val c =? 0x5C).
  { destruct rest as [|e rest']; [done|].
    destruct ((byte_val e =? 0x22) || (byte_val e =? 0x5C) || (byte_val e =? 0x2F)) eqn:He.
    { intros [= <- <-]. apply valid_ascii.
      apply orb_true_iff in He as [He|He]; [apply orb_true_iff in He as [He|He]|];
        apply N.eqb_eq in He; lia. }
    repeat (match goal with
            | |- context [if ?b then _ else _] => destruct b
            end; [by intros [= <- <-]|]).
    destruct (byte_val e =? 0x75); [|done].
    destruct (Json.getu4 _) as [rr|]; [|done].
    destruct (Json.IsSurrogate rr).
    - destruct (_ =? Utf8.RuneError); intros [= <- <-]; apply encode_valid.
    - intros [= <- <-]. apply encode_valid. }
  destruct (byte_val c =? 0x22); [done|].
  destruct (byte_val c <? 0x20); [done|].
  destruct (byte_val c <? Utf8.RuneSelf) eqn:Ha.
  - intros [= <- <-]. apply valid_ascii. by apply N.ltb_lt in Ha.
  - intros [= <- <-]. apply encode_valid.
Qed.

(** The scanner only produces strings that are valid UTF-8. *)
Lemma lex_valid s : forall mode k ts,
  mode_valid mode -> Json.lex mode k s = Some ts -> Forall token_valid ts.
Proof.
  induction s as [|c rest IH]; intros mode k ts Hm.
  { simpl. destruct mode, k; try done. by intros [= <-]. }
  destruct k as [|k]; [|apply (IH mode k ts Hm)].
  destruct mode as [acc|].
  - change (Json.lex (Some acc) 0 (String c rest))
      with (match Json.string_step (String c rest) with
            | Json.Close => cons (Json.TString acc) <$> Json.lex None 0 rest
            | Json.Fail => None
            | Json.Emit bytes k => Json.lex (Some (acc +:+ bytes)) k rest
            end).
    destruct (Json.string_step (String c rest)) as [| |bytes k] eqn:Hstep; [|done|].
    + destruct (Json.lex None 0 rest) as [ts'|] eqn:Hl; [|done].
      intros [= <-]. constructor; [done|]. by apply (IH None 0%nat).
    + apply IH. simpl. apply valid_app; [done|]. by apply string_step_valid in Hstep.
  - simpl.
    repeat match goal with
           | |- context [if ?b then _ else _] => destruct b
           end;
      try done; try (by apply (IH None 0%nat));
      try (destruct (Json.lex None _ rest) as [ts'|] eqn:Hl; [|done];
           intros [= <-]; constructor; [done|]; by eapply (IH None)).
    by apply (IH (Some EmptyString) 0%nat).
Qed.

Lemma member_value_valid t s :
  token_valid t -> Json.member_value t = Some s -> Utf8.ValidString s = true.
Proof. destruct t; try done; simpl; by intros ? [= <-]. Qed.

Lemma valid_catalog_empty : valid_catalog ∅.
Proof. intros k v. by rewrite lookup_empty. Qed.

Lemma valid_catalog_insert k v m :
  Utf8.ValidString k = true -> Utf8.ValidString v = true ->
  valid_catalog m -> valid_catalog (<[k := v]> m).
Proof. intros Hk Hv Hm. apply map_Forall_insert_2; [done|done]. Qed.

Lemma valid_catalog_delete k m : valid_catalog m -> valid_catalog (delete k m).
Proof. apply map_Forall_delete. Qed.

Lemma parse_members_valid ts : forall acc m,
  Forall token_valid ts -> valid_catalog acc ->
  Json.parse_members ts acc = Some m -> valid_catalog m.
Proof.
  induction ts as [ts IH] using (induction_ltof1 _ (@length _)). unfold ltof in IH.
  intros acc m Hts Hacc.
  destruct ts as [|[| | | |k|] [|[] [|v rest]]]; try done.
  simpl. destruct (Json.member_value v) as [s|] eqn:Hv; [|done].
  apply Forall_cons in Hts as [Hk Hts]. apply Forall_cons in Hts as [_ Hts].
  apply Forall_cons in Hts as [Hvv Hts].
  pose proof (member_value_valid _ _ Hvv Hv) as Hs.
  destruct rest as [|[] rest']; try done.
  - destruct rest'; [|done]. intros [= <-]. by apply valid_catalog_insert.
  - apply IH; [simpl; lia| |by apply valid_catalog_insert].
    by apply Forall_cons in Hts as [_ Hts].
Qed.

(** Whatever [json.Unmarshal] decodes into the map is valid UTF-8. *)
Lemma Unmarshal_valid s m : Json.Unmarshal s = Json.UMap m -> valid_catalog m.
Proof.
  unfold Json.Unmarshal.
  destruct (Json.lex None 0 s) as [ts|] eqn:Hl; [|done].
  apply (lex_valid s None 0%nat ts I) in Hl.
  destruct ts as [|[] ts]; try done.
  - destruct ts as [|t ts'].
    + destruct (Json.parse_members [] ∅) eqn:Hp; [|done]. done.
    + assert (match Json.parse_members (t :: ts') ∅ with
              | Some m0 => Json.UMap m0
              | None => Json.UErr
              end = Json.UMap m -> valid_catalog m) as Hgen.
      { destruct (Json.parse_members (t :: ts') ∅) as [m0|] eqn:Hp; [|done].
        intros [= <-].
        apply (parse_members_valid (t :: ts') ∅);
          [by apply Forall_cons in Hl as [_ Hl]|apply valid_catalog_empty|done]. }
      destruct t; try (by apply Hgen); destruct ts'; try (by apply Hgen).
      intros [= <-]. apply valid_catalog_empty.
  - by destruct ts.
Qed.

(** Every catalog [loadJSON] returns is valid UTF-8. *)
Lemma catalog_valid w path : valid_catalog (catalog w path).
Proof.
  rewrite catalog_unfold.
  destruct (files w !! path) as [f|]; [|apply valid_catalog_empty].
  destruct (f_readable f); [|apply valid_catalog_empty].
  destruct (Json.Unmarshal (f_data f)) eqn:Hu; try apply valid_catalog_empty.
  by apply Unmarshal_valid in Hu.
Qed.

(** ** The catalog after a save *)

Lemma saved_unfold path data w :
  saved path data w =
  match save_error w path with
  | Some _ => w
  | None => written path (Json.MarshalIndent data) w
  end.
Proof. unfold saved. rewrite saveJSON_spec. by destruct (save_error w path). Qed.

Lemma fst_saveJSON path data w : fst (saveJSON path data w) = save_error w path.
Proof. rewrite saveJSON_spec. by destruct (save_error w path). Qed.

Lemma catalog_saved path data w :
  save_error w path = None -> readable_or_absent w path = true ->
  catalog (saved path data w) path = reloaded data.
Proof.
  intros Hs Hr. rewrite saved_unfold, Hs, catalog_written by done.
  by rewrite Unmarshal_MarshalIndent.
Qed.

Lemma catalog_saved_ne path path' data w :
  path <> path' -> catalog (saved path data w) path' = catalog w path'.
Proof.
  intros Hne. rewrite saved_unfold. destruct (save_error w path); [done|].
  by apply catalog_written_ne.
Qed.

Lemma set_map_coerce_insert (key : string) (K : gset string) :
  set_map (D := gset string) Utf8.coerce ({[key]} ∪ K)
  = {[Utf8.coerce key]} ∪ set_map Utf8.coerce K.
Proof. by rewrite set_map_union_L, set_map_singleton_L. Qed.

(** ** C5 and C10: what is stored for a language other than English *)



Lemma TrimSpace_empty : Strings.TrimSpace EmptyString = EmptyString.
Proof. reflexivity. Qed.



(** ** The command handlers *)

Lemma initBasePath_ok w cwd :
  getwd w = Ok cwd -> mkdir_error w (base_dir cwd) = None ->
  initBasePath w
  = (None, set_stdout (stdout w ++ [LUsingBasePath (base_dir cwd)])
             (set_basePath (base_dir cwd) w)).
Proof.
  intros Hcwd Hmk. unfold initBasePath, bind, Getwd. simpl. rewrite Hcwd. simpl.
  fold (base_dir cwd). unfold MkdirAll. simpl. by rewrite Hmk.
Qed.




(** ** C3 and C4: outcomes of the commands *)




(** C4: when setup succeeds and the key is already present in the catalog
    of [en.json], [runAdd] prints the "already exists" line and returns; no
    file of the world is changed. *)
Theorem C4_add_existing_key_rejected
    (w : world) (ranged : list (string * string)) (key value cwd : string) :
  getwd w = Ok cwd -> mkdir_error w (base_dir cwd) = None ->
  has_key (catalog w (Filepath.Join (base_dir cwd) "en.json")) key = true ->
  stdout (snd (runAdd ranged key value w))
    = stdout w ++ [LUsingBasePath (base_dir cwd); LKeyExists key]
  /\ files (snd (runAdd ranged key value w)) = files w.
Proof.
  intros Hcwd Hmk Hkey. unfold runAdd, bind.
  rewrite (initBasePath_ok w cwd Hcwd Hmk). simpl.
  rewrite loadJSON_spec. simpl. rewrite !catalog_unfold in *. simpl.
  rewrite Hkey. simpl. by rewrite <- app_assoc.
Qed.

Lemma C4_witness :
  stdout (snd (runAdd languages "greeting" "Bonjour" greeted_world))
    = [LUsingBasePath "/srv/app/pkg/translates/localize/i18n"; LKeyExists "greeting"]
  /\ files (snd (runAdd languages "greeting" "Bonjour" greeted_world))
     = files greeted_world.
Proof.
  apply (C4_add_existing_key_rejected greeted_world languages "greeting" "Bonjour"
           "/srv/app").
  - reflexivity.
  - reflexivity.
  - vm_compute. reflexivity.
Defined.

(** ** C2: a save that fails *)

(** When [saveJSON] fails for the reference language, [processAddOrUpdate]
    still prints the success line, and nothing else. *)
Lemma save_failure_is_silent path key value langCode w e :
  save_error w path = Some e ->
  processAddOrUpdate path key value true langCode w
  = (tt, set_stdout (stdout w ++ [LStatusOk (Filepath.Base path) value]) w).
Proof.
  intros He. rewrite processAddOrUpdate_english. by rewrite saved_unfold, He.
Qed.

(** C2 (the code at the failing input): [km.json] is write-protected;
    [saveJSON] returns an error for it; [add greeting Hello] prints the
    success line for [km.json] all the same, leaves [km.json] as it was and
    writes the two other catalogs. *)
Theorem C2_save_failure_printed_as_success :
  let w' := snd (main languages (Add "greeting" "Hello") protected_world) in
  fst (saveJSON km_path (<["greeting" := "Bonjour"]> ∅) protected_world)
    = Some ("open " +:+ km_path +:+ ": permission denied")
  /\ stdout w'
     = [LUsingBasePath "/srv/app/pkg/translates/localize/i18n"; LBlank;
        LStatusOk "en.json" "Hello"; LStatusOk "km.json" "Bonjour";
        LStatusOk "zh.json" "Bonjour"; LAddedAll]
  /\ files w' !! km_path = Some (File "{}" true false)
  /\ catalog w' en_path = <["greeting" := "Hello"]> ∅
  /\ catalog w' km_path = ∅
  /\ catalog w' zh_path = <["greeting" := "Bonjour"]> ∅.
Proof. cbv zeta. repeat split; vm_compute; reflexivity. Qed.

(** ** C1: key parity *)

Lemma readable_saved path data w p :
  readable_or_absent (saved path data w) p = readable_or_absent w p.
Proof.
  rewrite saved_unfold. destruct (save_error w path); [done|].
  unfold written, readable_or_absent. simpl.
  destruct (decide (path = p)) as [->|Hne].
  - by rewrite lookup_insert_eq.
  - by rewrite lookup_insert_ne.
Qed.

Lemma save_error_saved path data w p :
  save_error (saved path data w) p = save_error w p.
Proof.
  rewrite saved_unfold. destruct (save_error w path) eqn:Hs; [done|].
  unfold save_error, written in *. simpl.
  destruct (decide (path = p)) as [->|Hne].
  - destruct (mkdir_error w (Filepath.Dir p)); [done|].
    rewrite lookup_insert_eq. simpl.
    destruct (files w !! p) as [f|].
    + by destruct (f_writable f).
    + by destruct (can_create w).
  - by rewrite lookup_insert_ne.
Qed.

Lemma basePath_saved path data w : basePath (saved path data w) = basePath w.
Proof. rewrite saved_unfold. by destruct (save_error w path). Qed.

Lemma dom_reloaded_valid m : valid_catalog m -> dom (reloaded m) = dom m.
Proof. intros Hv. by rewrite reloaded_valid. Qed.

(** After a successful save of a catalog read from a file with one key set
    to [v], the key set read back is the old one plus the coerced key. *)
Lemma dom_catalog_saved_insert path key v w :
  save_error w path = None -> readable_or_absent w path = true ->
  dom (catalog (saved path (<[key := v]> (catalog w path)) w) path)
  = {[Utf8.coerce key]} ∪ dom (catalog w path).
Proof.
  intros Hs Hr. rewrite catalog_saved by done.
  rewrite dom_reloaded, dom_insert_L, set_map_coerce_insert. f_equal.
  rewrite <- dom_reloaded. apply dom_reloaded_valid, catalog_valid.
Qed.

Lemma dom_catalog_saved_delete path key w :
  save_error w path = None -> readable_or_absent w path = true ->
  dom (catalog (saved path (delete key (catalog w path)) w) path)
  = dom (catalog w path) ∖ {[key]}.
Proof.
  intros Hs Hr. rewrite catalog_saved by done.
  rewrite dom_reloaded_valid by apply valid_catalog_delete, catalog_valid.
  apply dom_delete_L.
Qed.

Lemma processAddOrUpdate_effect path key value isEnglish langCode w :
  exists out v,
    snd (processAddOrUpdate path key value isEnglish langCode w)
    = set_stdout out (saved path (<[key := v]> (catalog w path)) w).
Proof.
  destruct isEnglish.
  - rewrite processAddOrUpdate_english. eauto.
  - rewrite processAddOrUpdate_other. eauto.
Qed.

Lemma add_body_local base key value :
  local_effect base (fun K => {[Utf8.coerce key]} ∪ K) (add_body key value).
Proof.
  intros [file langCode] w Hbase. unfold add_body, bind, get_basePath. simpl.
  rewrite Hbase.
  destruct (processAddOrUpdate_effect (Filepath.Join base file) key value
              (String.eqb file "en.json") langCode w) as (out & v & ->).
  split; [simpl; by rewrite basePath_saved|].
  split; [intros p; apply save_error_saved|].
  split; [intros p; apply readable_saved|].
  split.
  - intros p Hp. rewrite catalog_set_stdout. by apply catalog_saved_ne.
  - intros Hs Hr. rewrite catalog_set_stdout. by apply dom_catalog_saved_insert.
Qed.

Lemma has_key_dom data key : has_key data key = true <-> key ∈ dom data.
Proof. unfold has_key. by rewrite bool_decide_eq_true, elem_of_dom. Qed.

Lemma remove_body_local base key :
  local_effect base (fun K => K ∖ {[key]}) (remove_body key).
Proof.
  intros [file langCode] w Hbase. unfold remove_body, bind, get_basePath. simpl.
  rewrite Hbase, loadJSON_spec. simpl.
  destruct (has_key (catalog w (Filepath.Join base file)) key) eqn:Hk; simpl.
  - fold (saved (Filepath.Join base file)
               (delete key (catalog w (Filepath.Join base file))) w).
    split; [simpl; by rewrite basePath_saved|].
    split; [intros p; apply save_error_saved|].
    split; [intros p; apply readable_saved|].
    split.
    + intros p Hp. rewrite catalog_set_stdout. by apply catalog_saved_ne.
    + intros Hs Hr. rewrite catalog_set_stdout. by apply dom_catalog_saved_delete.
  - split; [done|]. split; [done|]. split; [done|]. split.
    + intros p Hp. by rewrite catalog_set_stdout.
    + intros _ _. rewrite catalog_set_stdout.
      assert (key ∉ dom (catalog w (Filepath.Join base file))) as Hnot.
      { rewrite <- has_key_dom. by rewrite Hk. }
      apply set_eq. intros x. rewrite elem_of_difference, elem_of_singleton.
      split; [|by intros [? _]]. intros Hx. split; [done|]. by intros ->.
Qed.

Lemma Join_inj base : Inj (=) (=) (Filepath.Join base).
Proof.
  intros a b. unfold Filepath.Join. destruct (String.rev base) as [|c r]; [done|].
  destruct (Filepath.is_sep c).
  - apply String.app_inj.
  - intros H. apply String.app_inj in H. by apply String.app_inj in H.
Qed.

(** A loop of local bodies over distinct languages maps the key set of each
    language it visits through [F] and leaves the other catalogs alone. *)
Lemma for_each_local base F body ranged : forall w,
  local_effect base F body ->
  NoDup (fst <$> ranged) -> basePath w = base ->
  Forall (fun l : string * string =>
            save_error w (Filepath.Join base (fst l)) = None
            /\ readable_or_absent w (Filepath.Join base (fst l)) = true) ranged ->
  let w' := snd (for_each ranged body w) in
  basePath w' = base
  /\ (forall p, save_error w' p = save_error w p)
  /\ (forall p, readable_or_absent w' p = readable_or_absent w p)
  /\ (forall p, p ∉ (Filepath.Join base <$> (fst <$> ranged)) -> catalog w' p = catalog w p)
  /\ Forall (fun l : string * string =>
               dom (catalog w' (Filepath.Join base (fst l)))
               = F (dom (catalog w (Filepath.Join base (fst l))))) ranged.
Proof.
  induction ranged as [|l rest IH]; intros w Hloc Hnd Hbase Hok; cbv zeta.
  { simpl. repeat split; try done. }
  rewrite fmap_cons in Hnd. apply NoDup_cons in Hnd as [Hl Hnd].
  apply Forall_cons in Hok as [[Hs Hr] Hok].
  destruct (Hloc l w Hbase) as (Hb1 & Hs1 & Hr1 & Hc1 & Hd1).
  set (w1 := snd (body l w)) in *.
  change (snd (for_each (l :: rest) body w)) with (snd (for_each rest body w1)).
  assert (Forall (fun l0 : string * string =>
                    save_error w1 (Filepath.Join base (fst l0)) = None
                    /\ readable_or_absent w1 (Filepath.Join base (fst l0)) = true) rest)
    as Hok1.
  { eapply Forall_impl; [exact Hok|]. intros l0 [? ?]. by rewrite Hs1, Hr1. }
  destruct (IH w1 Hloc Hnd Hb1 Hok1) as (Hb' & Hs' & Hr' & Hc' & Hd').
  set (w' := snd (for_each rest body w1)) in *.
  assert (Filepath.Join base (fst l) ∉ (Filepath.Join base <$> (fst <$> rest))) as Hfresh.
  { intros (f & Heq & Hin)%list_elem_of_fmap. apply Join_inj in Heq. by subst f. }
  split; [done|]. split; [intros p; by rewrite Hs', Hs1|].
  split; [intros p; by rewrite Hr', Hr1|]. split.
  - intros p Hp. rewrite !fmap_cons in Hp. apply not_elem_of_cons in Hp as [Hne Hp].
    by rewrite Hc', Hc1.
  - constructor.
    + rewrite Hc' by done. by apply Hd1.
    + rewrite Forall_forall in Hd' |- *. intros l0 Hin. rewrite Hd' by done.
      rewrite Hc1; [done|]. intros Heq. apply Join_inj in Heq.
      apply Hl. rewrite <- Heq. apply list_elem_of_fmap. eauto.
Qed.

Lemma same_store_catalog w w' p : same_store w w' -> catalog w p = catalog w' p.
Proof. intros (Hf & _ & _). by rewrite !catalog_unfold, Hf. Qed.

Lemma same_store_save_error w w' p : same_store w w' -> save_error w p = save_error w' p.
Proof. intros (Hf & Hm & Hc). unfold save_error. by rewrite Hf, Hm, Hc. Qed.

Lemma same_store_readable w w' p :
  same_store w w' -> readable_or_absent w p = readable_or_absent w' p.
Proof. intros (Hf & _ & _). unfold readable_or_absent. by rewrite Hf. Qed.

Lemma languages_NoDup : NoDup (fst <$> languages).
Proof. apply (bool_decide_unpack _). by vm_compute. Qed.

Lemma en_managed : ("en.json", "en") ∈ languages.
Proof. apply list_elem_of_here. Qed.

(** A loop of local bodies over all the languages keeps parity, provided
    every key-set map [F] is the same for all of them. *)
Lemma loop_parity base F body ranged w w2 :
  same_store w w2 -> basePath w2 = base ->
  local_effect base F body -> ranged ≡ₚ languages ->
  parity base w -> all_readable base w ->
  Forall (fun l : string * string =>
            save_error w (Filepath.Join base (fst l)) = None) languages ->
  parity base (snd (for_each ranged body w2))
  /\ all_readable base (snd (for_each ranged body w2)).
Proof.
  intros Hsame Hbase Hloc Hperm Hpar Hread Hsave.
  assert (NoDup (fst <$> ranged)) as Hnd by (rewrite Hperm; apply languages_NoDup).
  assert (Forall (fun l : string * string =>
                    save_error w2 (Filepath.Join base (fst l)) = None
                    /\ readable_or_absent w2 (Filepath.Join base (fst l)) = true) ranged)
    as Hok.
  { rewrite Hperm. unfold all_readable in Hread.
    rewrite Forall_forall in Hread, Hsave |- *. intros l Hl.
    rewrite <- (same_store_save_error w w2), <- (same_store_readable w w2) by done.
    split; [by apply Hsave|by apply Hread]. }
  destruct (for_each_local base F body ranged w2 Hloc Hnd Hbase Hok)
    as (_ & _ & Hr' & _ & Hd').
  set (w3 := snd (for_each ranged body w2)) in *.
  rewrite Hperm in Hd'. rewrite Forall_forall in Hd'.
  split.
  - unfold parity in *. rewrite Forall_forall in Hpar |- *. intros l Hl.
    pose proof (Hd' _ en_managed) as Hen. simpl in Hen.
    rewrite (Hd' l Hl), Hen.
    rewrite <- !(same_store_catalog w w2) by done. by rewrite (Hpar l Hl).
  - unfold all_readable in *. rewrite Forall_forall in Hread |- *. intros l Hl.
    rewrite Hr', <- (same_store_readable w w2) by done. by apply Hread.
Qed.

Lemma parity_same_store base w w' : same_store w w' -> parity base w -> parity base w'.
Proof.
  intros Hs Hp. unfold parity in *. eapply Forall_impl; [exact Hp|].
  intros l. simpl. by rewrite !(same_store_catalog w w').
Qed.

Lemma all_readable_same_store base w w' :
  same_store w w' -> all_readable base w -> all_readable base w'.
Proof.
  intros Hs Hr. unfold all_readable in *. eapply Forall_impl; [exact Hr|].
  intros l. simpl. by rewrite (same_store_readable w w').
Qed.

Lemma same_store_set_stdout out w : same_store w (set_stdout out w).
Proof. done. Qed.

(** One successful operation keeps parity and readability. *)
Lemma exec_parity cwd o w :
  parity (base_dir cwd) w -> all_readable (base_dir cwd) w -> succeeds cwd o w ->
  parity (base_dir cwd) (exec o w) /\ all_readable (base_dir cwd) (exec o w).
Proof.
  intros Hpar Hread (Hcwd & Hmk & Hperm & Hpre & Hsave).
  destruct o as [inv ranged net]. unfold exec. simpl in *.
  set (w0 := set_http_get net w).
  assert (same_store w w0) as Hs0 by done.
  pose proof (initBasePath_ok w0 cwd Hcwd Hmk) as Hinit.
  set (w1 := set_stdout (stdout w0 ++ [LUsingBasePath (base_dir cwd)])
               (set_basePath (base_dir cwd) w0)) in *.
  assert (same_store w w1) as Hs1 by done.
  assert (catalog w1 (Filepath.Join (base_dir cwd) "en.json")
          = catalog w (Filepath.Join (base_dir cwd) "en.json")) as Hen
    by (symmetry; by apply same_store_catalog).
  destruct inv as [err| |key value| |key value|key]; try done; simpl in Hpre; simpl.
  - (* add *)
    unfold runAdd, bind. rewrite Hinit. simpl. rewrite loadJSON_spec. simpl.
    rewrite Hen. apply negb_true_iff in Hpre. rewrite Hpre. simpl.
    set (w2 := set_stdout (stdout w1 ++ [LBlank]) w1).
    destruct (loop_parity (base_dir cwd) (fun K => {[Utf8.coerce key]} ∪ K)
                (add_body key value) ranged w w2) as [Hp Hr]; try done.
    { apply add_body_local. }
    split.
    + eapply parity_same_store; [|exact Hp]. apply same_store_set_stdout.
    + eapply all_readable_same_store; [|exact Hr]. apply same_store_set_stdout.
  - (* update *)
    unfold runUpdate, bind. rewrite Hinit. simpl. rewrite loadJSON_spec. simpl.
    rewrite Hen, Hpre. simpl.
    set (w2 := set_stdout (stdout w1 ++ [LBlank]) w1).
    destruct (loop_parity (base_dir cwd) (fun K => {[Utf8.coerce key]} ∪ K)
                (add_body key value) ranged w w2) as [Hp Hr]; try done.
    { apply add_body_local. }
    split.
    + eapply parity_same_store; [|exact Hp]. apply same_store_set_stdout.
    + eapply all_readable_same_store; [|exact Hr]. apply same_store_set_stdout.
  - (* remove *)
    unfold runRemove, bind. rewrite Hinit. simpl. rewrite loadJSON_spec. simpl.
    rewrite Hen, Hpre. simpl.
    set (w2 := set_stdout (stdout w1 ++ [LBlank]) w1).
    destruct (loop_parity (base_dir cwd) (fun K => K ∖ {[key]})
                (remove_body key) ranged w w2) as [Hp Hr]; try done.
    { apply remove_body_local. }
    split.
    + eapply parity_same_store; [|exact Hp]. apply same_store_set_stdout.
    + eapply all_readable_same_store; [|exact Hr]. apply same_store_set_stdout.
Qed.

(** C1 (as amended): starting from catalogs whose key sets are equal and
    whose files, where they exist, can be read, after each operation of a
    sequence of add, update and remove operations that each succeed, the key
    set of every managed catalog equals the key set of [en.json]. *)
Theorem C1_key_parity (cwd : string) (ops : list operation) (w : world) :
  parity (base_dir cwd) w ->
  all_readable (base_dir cwd) w ->
  all_succeed cwd ops w ->
  Forall (parity (base_dir cwd)) (trace ops w).
Proof.
  revert w. induction ops as [|o ops IH]; intros w Hpar Hread Hall; simpl.
  - constructor.
  - destruct Hall as [Hone Hall].
    destruct (exec_parity cwd o w Hpar Hread Hone) as [Hp Hr].
    constructor; [done|]. by apply IH.
Qed.

Ltac each_language := repeat constructor; vm_compute; reflexivity.

Lemma C1_witness :
  Forall (parity (base_dir "/srv/app"))
         (trace [add_greeting; update_greeting; remove_greeting] empty_world).
Proof.
  apply (C1_key_parity "/srv/app" [add_greeting; update_greeting; remove_greeting]
           empty_world).
  - each_language.
  - each_language.
  - simpl. repeat split; try reflexivity; try (vm_compute; reflexivity);
      try each_language.
    + symmetry. apply (Permutation_cons_append [("km.json", "km"); ("zh.json", "zh-CN")]).
    + apply (Permutation_cons_append [("en.json", "en"); ("km.json", "km")]).
Defined.

(** C1, as stated, fails when a catalog file can be written and cannot be
    read: the catalogs start with equal (empty) key sets, [add greeting
    Hello] and [add farewell Bye] succeed for every language and write
    [km.json]; the catalog of [km.json] is still read as empty while
    [en.json] holds the keys, and the bytes of [km.json] hold the last key
    only. *)
Lemma C1_counterexample :
  parity (base_dir "/srv/app") unreadable_world
  /\ all_succeed "/srv/app" [add_greeting; add_farewell] unreadable_world
  /\ files (exec add_farewell (exec add_greeting unreadable_world)) !! km_path
     = Some (File (Json.MarshalIndent (<["farewell" := "Bye"]> ∅)) false true)
  /\ files (exec add_farewell (exec add_greeting unreadable_world)) !! en_path
     = Some (File (Json.MarshalIndent
                     (<["farewell" := "Bye"]> (<["greeting" := "Hello"]> ∅)))
                  true true)
  /\ ~ Forall (parity (base_dir "/srv/app"))
             (trace [add_greeting; add_farewell] unreadable_world).
Proof.
  split; [each_language|]. split.
  { simpl. repeat split; try reflexivity; try (vm_compute; reflexivity); each_language. }
  split; [vm_compute; reflexivity|]. split; [vm_compute; reflexivity|].
  intros H. simpl in H. apply Forall_cons in H as [H _].
  unfold parity in H. apply Forall_cons in H as [_ H]. apply Forall_cons in H as [H _].
  apply (f_equal (fun K : gset string => bool_decide ("greeting" ∈ K))) in H.
  vm_compute in H. discriminate H.
Qed.

(** ** Sample runs *)

Example trim_ascii : Strings.TrimSpace "  a b   " = "a b".
Proof. vm_compute. reflexivity. Qed.

Example trim_unicode : Strings.TrimSpace ("  Bonjour €" +:+ nl) = "Bonjour €".
Proof. vm_compute. reflexivity. Qed.

Example base_of_catalog : Filepath.Base km_path = "km.json".
Proof. vm_compute. reflexivity. Qed.

Example dir_of_catalog :
  Filepath.Dir km_path = "/srv/app/pkg/translates/localize/i18n".
Proof. vm_compute. reflexivity. Qed.

Example marshal_two_keys :
  Json.MarshalIndent two_keys
  = "{" +:+ nl
    +:+ "  " +:+ Json.appendString "a" +:+ ": " +:+ Json.appendString "first" +:+ "," +:+ nl
    +:+ "  " +:+ Json.appendString "b" +:+ ": " +:+ Json.appendString "second" +:+ nl
    +:+ "}".
Proof. vm_compute. reflexivity. Qed.

Example list_after_add :
  stdout (snd (main languages List
                 (set_stdout [] (snd (main languages (Add "greeting" "Hello") empty_world)))))
  = [LUsingBasePath "/srv/app/pkg/translates/localize/i18n"; LFound 1;
     LEntry "greeting" "Hello"].
Proof. vm_compute. reflexivity. Qed.

Example render_status : render (LStatusOk "km.json" "Hello") = "✅ km.json: Hello" +:+ nl.
Proof. vm_compute. reflexivity. Qed.

(** ** What the handlers do, case by case *)

Lemma for_each_println {A} (g : A -> line) (l : list A) w :
  for_each l (fun x => println (g x)) w = (tt, set_stdout (stdout w ++ map g l) w).
Proof.
  revert w. induction l as [|x l IH]; intros w.
  - simpl. unfold ret, set_stdout. rewrite app_nil_r. by destruct w.
  - cbn [for_each]. unfold bind at 1. rewrite IH. unfold println, set_stdout. simpl.
    by rewrite <- app_assoc.
Qed.

(** What a path holds does not depend on the base path. *)
Lemma catalog_set_basePath b w path : catalog (set_basePath b w) path = catalog w path.
Proof. by rewrite !catalog_unfold. Qed.

Lemma runList_ok w cwd :
  getwd w = Ok cwd -> mkdir_error w (base_dir cwd) = None ->
  runList w
  = (tt, set_stdout (stdout w ++ LUsingBasePath (base_dir cwd)
                       :: listing (catalog w (managed cwd "en.json")))
           (set_basePath (base_dir cwd) w)).
Proof.
  intros Hcwd Hmk. unfold runList, bind. rewrite (initBasePath_ok w cwd Hcwd Hmk).
  simpl. rewrite loadJSON_spec. simpl.
  rewrite !catalog_set_stdout, !catalog_set_basePath. unfold managed, listing.
  set (data := catalog w (Filepath.Join (base_dir cwd) "en.json")).
  destruct (size data =? 0)%nat.
  - unfold println, set_stdout. simpl. by rewrite <- app_assoc.
  - unfold println at 1. cbn [fst snd].
    etrans; [apply (for_each_println (fun k => LEntry k (default EmptyString (data !! k))))|].
    unfold set_stdout, Json.sorted_keys. simpl. by rewrite <- !app_assoc.
Qed.

Lemma handler_failed_world w e :
  fst (initBasePath w) = Some e ->
  exists b, snd (initBasePath w) = set_basePath b w.
Proof.
  unfold initBasePath, bind, Getwd. simpl.
  destruct (getwd w) as [cwd|e']; simpl.
  - unfold MkdirAll. simpl. destruct (mkdir_error w _); [|done]. eauto.
  - intros _. exists (basePath w). by destruct w.
Qed.

Section handlers.

Variables (w : world) (cwd : string) (ranged : list (string * string)).
Hypothesis Hcwd : getwd w = Ok cwd.
Hypothesis Hmk : mkdir_error w (base_dir cwd) = None.

Lemma prologue (key : string) :
  initBasePath w
  = (None, set_stdout (stdout w ++ [LUsingBasePath (base_dir cwd)])
             (set_basePath (base_dir cwd) w))
  /\ catalog (set_stdout (stdout w ++ [LUsingBasePath (base_dir cwd)])
                (set_basePath (base_dir cwd) w)) (Filepath.Join (base_dir cwd) "en.json")
     = catalog w (managed cwd "en.json").
Proof.
  split; [by apply initBasePath_ok|].
  by rewrite catalog_set_stdout, catalog_set_basePath.
Qed.

Lemma runAdd_turned_down key value :
  has_key (catalog w (managed cwd "en.json")) key = true ->
  runAdd ranged key value w = (tt, turned_down cwd (LKeyExists key) w).
Proof.
  intros Hk. destruct (prologue key) as [Hi Hc]. unfold runAdd, bind.
  rewrite Hi. simpl. rewrite loadJSON_spec. simpl. rewrite Hc, Hk.
  unfold println, turned_down, set_stdout. simpl. by rewrite <- app_assoc.
Qed.

Lemma runUpdate_turned_down key value :
  has_key (catalog w (managed cwd "en.json")) key = false ->
  runUpdate ranged key value w = (tt, turned_down cwd (LKeyMissingUpdate key) w).
Proof.
  intros Hk. destruct (prologue key) as [Hi Hc]. unfold runUpdate, bind.
  rewrite Hi. simpl. rewrite loadJSON_spec. simpl. rewrite Hc, Hk.
  unfold println, turned_down, set_stdout. simpl. by rewrite <- app_assoc.
Qed.

Lemma runRemove_turned_down key :
  has_key (catalog w (managed cwd "en.json")) key = false ->
  runRemove ranged key w = (tt, turned_down cwd (LKeyMissingRemove key) w).
Proof.
  intros Hk. destruct (prologue key) as [Hi Hc]. unfold runRemove, bind.
  rewrite Hi. simpl. rewrite loadJSON_spec. simpl. rewrite Hc, Hk.
  unfold println, turned_down, set_stdout. simpl. by rewrite <- app_assoc.
Qed.

Lemma runAdd_runs key value :
  has_key (catalog w (managed cwd "en.json")) key = false ->
  runAdd ranged key value w
  = (tt, closed LAddedAll (snd (for_each ranged (add_body key value) (started cwd w)))).
Proof.
  intros Hk. destruct (prologue key) as [Hi Hc]. unfold runAdd, bind.
  rewrite Hi. simpl. rewrite loadJSON_spec. simpl. rewrite Hc, Hk. simpl.
  unfold closed, started, set_stdout. simpl. by rewrite <- !app_assoc.
Qed.

Lemma runUpdate_runs key value :
  has_key (catalog w (managed cwd "en.json")) key = true ->
  runUpdate ranged key value w
  = (tt, closed LUpdatedAll (snd (for_each ranged (add_body key value) (started cwd w)))).
Proof.
  intros Hk. destruct (prologue key) as [Hi Hc]. unfold runUpdate, bind.
  rewrite Hi. simpl. rewrite loadJSON_spec. simpl. rewrite Hc, Hk. simpl.
  unfold closed, started, set_stdout. simpl. by rewrite <- !app_assoc.
Qed.

Lemma runRemove_runs key :
  has_key (catalog w (managed cwd "en.json")) key = true ->
  runRemove ranged key w
  = (tt, closed LRemovedAll (snd (for_each ranged (remove_body key) (started cwd w)))).
Proof.
  intros Hk. destruct (prologue key) as [Hi Hc]. unfold runRemove, bind.
  rewrite Hi. simpl. rewrite loadJSON_spec. simpl. rewrite Hc, Hk. simpl.
  unfold closed, started, set_stdout. simpl. by rewrite <- !app_assoc.
Qed.

End handlers.

(** ** What every command keeps *)

Lemma steady_refl w : steady w w.
Proof. repeat split; try done. intros p [d r x] Hp. eauto. Qed.

Lemma steady_trans w1 w2 w3 : steady w1 w2 -> steady w2 w3 -> steady w1 w3.
Proof.
  intros (A1 & A2 & A3 & A4 & A5 & A6 & A7) (B1 & B2 & B3 & B4 & B5 & B6 & B7).
  split; [congruence|]. split; [congruence|]. split; [congruence|].
  split; [congruence|]. split; [intros p; by rewrite B5|].
  split; [intros p; by rewrite B6|].
  intros p f Hp. destruct (A7 p f Hp) as [d Hd].
  destruct (B7 p _ Hd) as [d' Hd']. simpl in Hd'. eauto.
Qed.

Lemma steady_set_stdout out w : steady w (set_stdout out w).
Proof. repeat split; try done. intros p [d r x] Hp. simpl. eauto. Qed.

Lemma steady_set_basePath b w : steady w (set_basePath b w).
Proof. repeat split; try done. intros p [d r x] Hp. simpl. eauto. Qed.

Lemma steady_saved path data w : steady w (saved path data w).
Proof.
  split; [by rewrite saved_unfold; destruct (save_error w path)|].
  split; [by rewrite saved_unfold; destruct (save_error w path)|].
  split; [by rewrite saved_unfold; destruct (save_error w path)|].
  split; [by rewrite saved_unfold; destruct (save_error w path)|].
  split; [intros p; apply save_error_saved|].
  split; [intros p; apply readable_saved|].
  intros p [d r x] Hp. rewrite saved_unfold.
  destruct (save_error w path) eqn:Hs; [eauto|].
  unfold written. simpl. destruct (decide (path = p)) as [->|Hne].
  - rewrite lookup_insert_eq. unfold readable_or_absent. rewrite Hp. simpl.
    unfold save_error in Hs. rewrite Hp in Hs. simpl in Hs.
    destruct (mkdir_error w _); [done|]. destruct x; [eauto|done].
  - rewrite lookup_insert_ne by done. eauto.
Qed.

Lemma files_saved_ne path data w p :
  p <> path -> files (saved path data w) !! p = files w !! p.
Proof.
  intros Hne. rewrite saved_unfold. destruct (save_error w path); [done|].
  unfold written. simpl. by rewrite lookup_insert_ne.
Qed.

Lemma catalog_ext w w' p : files w' !! p = files w !! p -> catalog w' p = catalog w p.
Proof. intros H. by rewrite !catalog_unfold, H. Qed.

(** ** The value a language receives *)

Lemma googleTranslate_net w w' text lang :
  http_get w' = http_get w ->
  fst (googleTranslate text lang w') = fst (googleTranslate text lang w).
Proof.
  intros H. unfold googleTranslate. rewrite H.
  destruct (http_get w lang text) as [|status body]; [done|].
  destruct (negb _); [done|]. by destruct body.
Qed.

Lemma stored_value_net w w' value l :
  http_get w' = http_get w -> stored_value w' value l = stored_value w value l.
Proof.
  intros H. unfold stored_value, translated_or_value.
  by rewrite (googleTranslate_net w w').
Qed.

Lemma add_body_world key value l w :
  exists out,
    snd (add_body key value l w)
    = set_stdout out
        (saved (Filepath.Join (basePath w) (fst l))
               (<[key := stored_value w value l]>
                  (catalog w (Filepath.Join (basePath w) (fst l)))) w).
Proof.
  destruct l as [file langCode]. unfold add_body, bind, get_basePath, stored_value.
  simpl. destruct (String.eqb file "en.json").
  - rewrite processAddOrUpdate_english. eauto.
  - rewrite processAddOrUpdate_other. eauto.
Qed.

(** ** Catalogs of valid keys *)

Lemma coerce_fmap_valid (m : gmap string string) :
  valid_catalog m -> Utf8.coerce <$> m = m.
Proof.
  intros Hv. apply map_eq. intros i. rewrite lookup_fmap.
  destruct (m !! i) as [v|] eqn:Hi; [|done]. simpl.
  destruct (Hv i v Hi) as [_ Hvv]. by rewrite coerce_valid.
Qed.

(** A catalog whose keys are valid UTF-8 is read back with its values
    coerced, key by key. *)
Lemma reloaded_valid_keys (m : gmap string string) :
  (forall k, is_Some (m !! k) -> Utf8.ValidString k = true) ->
  reloaded m = Utf8.coerce <$> m.
Proof.
  intros Hk. unfold reloaded.
  rewrite (foldl_ext_in _ (fun a k => <[k := Utf8.coerce (default EmptyString (m !! k))]> a)).
  2:{ intros acc k Hin%elem_of_sorted_keys. unfold put_member.
      by rewrite (coerce_valid k) by by apply Hk. }
  apply map_eq. intros i.
  rewrite (lookup_foldl_insert (fun k => Utf8.coerce (default EmptyString (m !! k)))).
  rewrite lookup_fmap. case_decide as Hin.
  - apply elem_of_sorted_keys in Hin as [v ->]. done.
  - rewrite lookup_empty. rewrite elem_of_sorted_keys in Hin.
    apply eq_None_not_Some in Hin. by rewrite Hin.
Qed.

Lemma reloaded_insert key v (m : gmap string string) :
  valid_catalog m -> Utf8.ValidString key = true ->
  reloaded (<[key := v]> m) = <[key := Utf8.coerce v]> m.
Proof.
  intros Hv Hkey. rewrite reloaded_valid_keys.
  - by rewrite fmap_insert, coerce_fmap_valid.
  - intros k [x Hx]. destruct (decide (k = key)) as [->|Hne]; [done|].
    rewrite lookup_insert_ne in Hx by done. by destruct (Hv k x Hx).
Qed.

(** ** Loop bodies, catalog by catalog *)

Lemma add_body_update base w0 key value :
  local_update base (http_get w0) (with_key w0 key value) (add_body key value).
Proof.
  intros l w Hbase Hnet.
  destruct (add_body_world key value l w) as [out ->]. rewrite Hbase.
  split; [simpl; by rewrite basePath_saved|].
  split; [eapply steady_trans; [apply steady_saved|apply steady_set_stdout]|].
  split; [intros p Hp; simpl; by apply files_saved_ne|].
  intros Hs Hr. rewrite catalog_set_stdout, catalog_saved by done.
  unfold with_key. by rewrite (stored_value_net w0 w).
Qed.

Lemma remove_body_update base net key :
  local_update base net (fun _ m => delete key m) (remove_body key).
Proof.
  intros [file langCode] w Hbase Hnet. unfold remove_body, bind, get_basePath. simpl.
  rewrite Hbase, loadJSON_spec. simpl.
  destruct (has_key (catalog w (Filepath.Join base file)) key) eqn:Hk; simpl.
  - fold (saved (Filepath.Join base file)
               (delete key (catalog w (Filepath.Join base file))) w).
    split; [simpl; by rewrite basePath_saved|].
    split; [apply steady_saved|].
    split; [intros p Hp; by apply files_saved_ne|].
    intros Hs Hr. rewrite catalog_set_stdout, catalog_saved by done.
    apply reloaded_valid, valid_catalog_delete, catalog_valid.
  - split; [done|]. split; [apply steady_set_stdout|]. split; [done|].
    intros _ _. rewrite catalog_set_stdout. symmetry. apply delete_id.
    apply eq_None_not_Some. intros Hs. apply elem_of_dom, has_key_dom in Hs.
    congruence.
Qed.

(** ** Loops of local updates *)

Lemma for_each_steady base net G body (ranged : list (string * string)) : forall w,
  local_update base net G body ->
  basePath w = base -> http_get w = net ->
  let w' := snd (for_each ranged body w) in
  basePath w' = base
  /\ steady w w'
  /\ (forall p, p ∉ (Filepath.Join base <$> (fst <$> ranged)) ->
                files w' !! p = files w !! p).
Proof.
  induction ranged as [|l ranged IH]; intros w Hbody Hbase Hnet; cbn [for_each].
  - split; [done|]. split; [apply steady_refl|done].
  - unfold bind. cbv zeta.
    destruct (Hbody l w Hbase Hnet) as (Hb & Hst & Hframe & _).
    assert (Hnet' : http_get (snd (body l w)) = net).
    { destruct Hst as (_ & _ & _ & Hn & _). congruence. }
    destruct (IH (snd (body l w)) Hbody Hb Hnet') as (Hb' & Hst' & Hframe').
    split; [done|]. split; [by eapply steady_trans|].
    intros p Hp. rewrite !fmap_cons, not_elem_of_cons in Hp. destruct Hp as [Hne Hp].
    rewrite Hframe' by done. by apply Hframe.
Qed.

Lemma for_each_update base net G body (ranged : list (string * string)) : forall w,
  local_update base net G body ->
  NoDup (fst <$> ranged) ->
  basePath w = base -> http_get w = net ->
  Forall (fun l : string * string =>
            save_error w (Filepath.Join base (fst l)) = None ->
            readable_or_absent w (Filepath.Join base (fst l)) = true ->
            catalog (snd (for_each ranged body w)) (Filepath.Join base (fst l))
            = G l (catalog w (Filepath.Join base (fst l))))
         ranged.
Proof.
  induction ranged as [|l ranged IH]; intros w Hbody Hnd Hbase Hnet; [constructor|].
  rewrite fmap_cons in Hnd. apply NoDup_cons in Hnd as [Hnotin Hnd].
  cbn [for_each]. unfold bind.
  destruct (Hbody l w Hbase Hnet) as (Hb & Hst & Hframe & Hcat).
  assert (Hnet' : http_get (snd (body l w)) = net).
  { destruct Hst as (_ & _ & _ & Hn & _). congruence. }
  destruct (for_each_steady base net G body ranged (snd (body l w)) Hbody Hb Hnet')
    as (_ & _ & Hrest).
  constructor.
  - intros Hs Hr. rewrite <- Hcat by done. apply catalog_ext, Hrest.
    intros Hin. apply list_elem_of_fmap in Hin as (f & Hf & Hin).
    apply Join_inj in Hf. congruence.
  - specialize (IH (snd (body l w)) Hbody Hnd Hb Hnet').
    rewrite Forall_forall in IH |- *. intros l' Hin Hs Hr.
    destruct Hst as (_ & _ & _ & _ & Hse & Hre & _).
    rewrite IH by (done || by rewrite ?Hse, ?Hre). f_equal.
    apply catalog_ext, Hframe. intros Heq. apply Join_inj in Heq.
    apply Hnotin. rewrite <- Heq. apply list_elem_of_fmap. eauto.
Qed.

Lemma local_update_ranged (ranged : list (string * string)) :
  ranged ≡ₚ languages -> NoDup (fst <$> ranged).
Proof. intros ->. apply languages_NoDup. Qed.

Lemma steady_started cwd w : steady w (started cwd w).
Proof.
  unfold started. eapply steady_trans; [apply steady_set_basePath|apply steady_set_stdout].
Qed.

Lemma steady_closed l w : steady w (closed l w).
Proof. apply steady_set_stdout. Qed.

Lemma steady_turned_down cwd l w : steady w (turned_down cwd l w).
Proof.
  unfold turned_down. eapply steady_trans; [apply steady_set_basePath|apply steady_set_stdout].
Qed.

Lemma catalog_started cwd w p : catalog (started cwd w) p = catalog w p.
Proof. unfold started. by rewrite catalog_set_stdout, catalog_set_basePath. Qed.

Lemma catalog_closed l w p : catalog (closed l w) p = catalog w p.
Proof. unfold closed. by rewrite catalog_set_stdout. Qed.

Lemma ready_steady cwd w w' : ready cwd w -> steady w w' -> ready cwd w'.
Proof.
  intros (Hcwd & Hmk & Hall) (A1 & A2 & _ & _ & A5 & A6 & _).
  split; [congruence|]. split; [by rewrite A2|].
  eapply Forall_impl; [exact Hall|]. intros l [Hs Hr]. by rewrite A5, A6.
Qed.

(** What a command that passed its check makes of the managed catalogs. *)
Lemma command_update cwd w (ranged : list (string * string)) G body l0 :
  local_update (base_dir cwd) (http_get w) G body ->
  ready cwd w -> ranged ≡ₚ languages ->
  let w' := closed l0 (snd (for_each ranged body (started cwd w))) in
  steady w w'
  /\ Forall (fun l : string * string =>
               catalog w' (managed cwd (fst l)) = G l (catalog w (managed cwd (fst l))))
            languages.
Proof.
  intros Hbody (Hcwd & Hmk & Hall) Hperm. cbv zeta.
  destruct (for_each_steady (base_dir cwd) (http_get w) G body ranged (started cwd w))
    as (_ & Hst & _); try done.
  split.
  { eapply steady_trans; [apply steady_started|].
    eapply steady_trans; [exact Hst|apply steady_closed]. }
  pose proof (for_each_update (base_dir cwd) (http_get w) G body ranged (started cwd w)
                Hbody (local_update_ranged ranged Hperm) eq_refl eq_refl) as Hup.
  rewrite Hperm in Hup. rewrite Forall_forall in Hup, Hall |- *.
  intros l Hin. destruct (Hall l Hin) as [Hs Hr].
  rewrite catalog_closed. unfold managed.
  rewrite (Hup l Hin) by done. by rewrite catalog_started.
Qed.

(** ** The commands, outcome by outcome *)

(** Every run of a handler ends in one of four ways: setup failed, the
    check on [en.json] turned the command down, the catalog was listed, or
    the loop over the languages ran. *)
Lemma command_outcome ranged inv w :
  is_command inv = true ->
  (exists e b, snd (main ranged inv w)
               = set_stdout (stdout w ++ [LSetupError e]) (set_basePath b w))
  \/ exists cwd,
       getwd w = Ok cwd /\ mkdir_error w (base_dir cwd) = None
       /\ ((exists l, snd (main ranged inv w) = turned_down cwd l w)
           \/ (exists out, snd (main ranged inv w)
                           = set_stdout out (set_basePath (base_dir cwd) w))
           \/ (exists G body l0,
                 local_update (base_dir cwd) (http_get w) G body
                 /\ snd (main ranged inv w)
                    = closed l0 (snd (for_each ranged body (started cwd w))))).
Proof.
  intros Hc. destruct (fst (initBasePath w)) as [e|] eqn:He.
  - left. destruct (handler_failed_world w e He) as [b Hb]. exists e, b.
    destruct (initBasePath w) as [r w1] eqn:Hi. simpl in He, Hb. subst r w1.
    destruct inv; try done; simpl;
      unfold runAdd, runList, runUpdate, runRemove, bind; by rewrite Hi.
  - right. revert He. unfold initBasePath, bind, Getwd. simpl.
    destruct (getwd w) as [cwd|e] eqn:Hcwd; simpl; [|done].
    unfold MkdirAll. simpl. fold (base_dir cwd).
    destruct (mkdir_error w (base_dir cwd)) eqn:Hmk; [done|]. intros _.
    exists cwd. split; [done|]. split; [done|].
    destruct inv as [| |key value| |key value|key]; try done.
    + change (snd (main ranged (Add key value) w)) with (snd (runAdd ranged key value w)).
      destruct (has_key (catalog w (managed cwd "en.json")) key) eqn:Hk.
      * left. eexists. by rewrite (runAdd_turned_down w cwd ranged Hcwd Hmk).
      * right. right. exists (with_key w key value), (add_body key value), LAddedAll.
        split; [apply add_body_update|].
        by rewrite (runAdd_runs w cwd ranged Hcwd Hmk).
    + change (snd (main ranged List w)) with (snd (runList w)).
      right. left. eexists. by rewrite (runList_ok w cwd Hcwd Hmk).
    + change (snd (main ranged (Update key value) w))
        with (snd (runUpdate ranged key value w)).
      destruct (has_key (catalog w (managed cwd "en.json")) key) eqn:Hk.
      * right. right. exists (with_key w key value), (add_body key value), LUpdatedAll.
        split; [apply add_body_update|].
        by rewrite (runUpdate_runs w cwd ranged Hcwd Hmk).
      * left. eexists. by rewrite (runUpdate_turned_down w cwd ranged Hcwd Hmk).
    + change (snd (main ranged (Remove key) w)) with (snd (runRemove ranged key w)).
      destruct (has_key (catalog w (managed cwd "en.json")) key) eqn:Hk.
      * right. right. exists (fun _ m => delete key m), (remove_body key), LRemovedAll.
        split; [apply remove_body_update|].
        by rewrite (runRemove_runs w cwd ranged Hcwd Hmk).
      * left. eexists. by rewrite (runRemove_turned_down w cwd ranged Hcwd Hmk).
Qed.

Lemma main_steady ranged inv w : steady w (snd (main ranged inv w)).
Proof.
  destruct (is_command inv) eqn:Hc.
  2:{ destruct inv; try done; [apply steady_set_stdout|apply steady_refl]. }
  destruct (command_outcome ranged inv w Hc)
    as [(e & b & ->)|(cwd & Hcwd & Hmk & [[l ->]|[[out ->]|(G & body & l0 & Hb & ->)]])].
  - eapply steady_trans; [apply steady_set_basePath|apply steady_set_stdout].
  - apply steady_turned_down.
  - eapply steady_trans; [apply steady_set_basePath|apply steady_set_stdout].
  - eapply steady_trans; [apply steady_started|].
    eapply steady_trans; [|apply steady_closed].
    by apply (for_each_steady (base_dir cwd) (http_get w) G body ranged (started cwd w)).
Qed.


(** ** The lines and files of [runList] *)

Lemma initBasePath_lost w e :
  getwd w = Err e ->
  initBasePath w = (Some ("failed to get current directory: " +:+ e), w).
Proof. intros H. unfold initBasePath, bind, Getwd. simpl. by rewrite H. Qed.

Lemma initBasePath_refused w cwd e :
  getwd w = Ok cwd -> mkdir_error w (base_dir cwd) = Some e ->
  initBasePath w
  = (Some ("failed to create directory: " +:+ e), set_basePath (base_dir cwd) w).
Proof.
  intros Hcwd Hmk. unfold initBasePath, bind, Getwd. simpl. rewrite Hcwd. simpl.
  unfold MkdirAll. simpl. fold (base_dir cwd). by rewrite Hmk.
Qed.

Lemma runList_snd w :
  exists b out,
    snd (runList w) = set_stdout (stdout w ++ out) (set_basePath b w)
    /\ forall o, snd (runList (set_stdout o (set_basePath b w)))
                 = set_stdout (o ++ out) (set_basePath b w).
Proof.
  destruct (getwd w) as [cwd|e] eqn:Hcwd.
  - destruct (mkdir_error w (base_dir cwd)) as [e|] eqn:Hmk.
    + exists (base_dir cwd), [LSetupError ("failed to create directory: " +:+ e)].
      split.
      * unfold runList, bind. by rewrite (initBasePath_refused w cwd e).
      * intros o. unfold runList, bind.
        by rewrite (initBasePath_refused (set_stdout o (set_basePath (base_dir cwd) w)) cwd e).
    + exists (base_dir cwd), (LUsingBasePath (base_dir cwd)
                               :: listing (catalog w (managed cwd "en.json"))).
      split.
      * by rewrite (runList_ok w cwd Hcwd Hmk).
      * intros o.
        rewrite (runList_ok (set_stdout o (set_basePath (base_dir cwd) w)) cwd Hcwd Hmk).
        by rewrite catalog_set_stdout, catalog_set_basePath.
  - exists (basePath w), [LSetupError ("failed to get current directory: " +:+ e)].
    split.
    + unfold runList, bind. rewrite (initBasePath_lost w e Hcwd). by destruct w.
    + intros o. unfold runList, bind.
      by rewrite (initBasePath_lost (set_stdout o (set_basePath (basePath w) w)) e).
Qed.

(** ** The catalogs after a command that ran *)

Lemma runAdd_catalogs (w : world) (cwd : string)
    (ranged : list (string * string)) (key value : string) :
  ready cwd w -> ranged ≡ₚ languages -> Utf8.ValidString key = true ->
  has_key (catalog w (managed cwd "en.json")) key = false ->
  Forall (fun l : string * string =>
            catalog (snd (runAdd ranged key value w)) (managed cwd (fst l))
            = <[key := Utf8.coerce (stored_value w value l)]>
                (catalog w (managed cwd (fst l))))
         languages.
Proof.
  intros Hready Hperm Hkey Hk. destruct Hready as (Hcwd & Hmk & Hall).
  rewrite (runAdd_runs w cwd ranged Hcwd Hmk) by done. cbn [snd].
  destruct (command_update cwd w ranged (with_key w key value) (add_body key value)
              LAddedAll (add_body_update _ w key value)) as [_ Hup]; try done.
  eapply Forall_impl; [exact Hup|]. intros l ->. unfold with_key.
  apply reloaded_insert; [apply catalog_valid|done].
Qed.

Lemma runUpdate_catalogs (w : world) (cwd : string)
    (ranged : list (string * string)) (key value : string) :
  ready cwd w -> ranged ≡ₚ languages -> Utf8.ValidString key = true ->
  has_key (catalog w (managed cwd "en.json")) key = true ->
  Forall (fun l : string * string =>
            catalog (snd (runUpdate ranged key value w)) (managed cwd (fst l))
            = <[key := Utf8.coerce (stored_value w value l)]>
                (catalog w (managed cwd (fst l))))
         languages.
Proof.
  intros Hready Hperm Hkey Hk. destruct Hready as (Hcwd & Hmk & Hall).
  rewrite (runUpdate_runs w cwd ranged Hcwd Hmk) by done. cbn [snd].
  destruct (command_update cwd w ranged (with_key w key value) (add_body key value)
              LUpdatedAll (add_body_update _ w key value)) as [_ Hup]; try done.
  eapply Forall_impl; [exact Hup|]. intros l ->. unfold with_key.
  apply reloaded_insert; [apply catalog_valid|done].
Qed.

Lemma runRemove_catalogs (w : world) (cwd : string)
    (ranged : list (string * string)) (key : string) :
  ready cwd w -> ranged ≡ₚ languages ->
  has_key (catalog w (managed cwd "en.json")) key = true ->
  Forall (fun l : string * string =>
            catalog (snd (runRemove ranged key w)) (managed cwd (fst l))
            = delete key (catalog w (managed cwd (fst l))))
         languages.
Proof.
  intros Hready Hperm Hk. destruct Hready as (Hcwd & Hmk & Hall).
  rewrite (runRemove_runs w cwd ranged Hcwd Hmk) by done. cbn [snd].
  by destruct (command_update cwd w ranged (fun _ m => delete key m) (remove_body key)
                 LRemovedAll (remove_body_update _ (http_get w) key)) as [_ Hup].
Qed.


(** ** Commands turned down by the check on [en.json] *)

(** [runRemove] on a key that [en.json] does not hold, setup succeeding:
    the base path and the warning are printed, and no file is touched. *)
Theorem remove_missing_key_rejected (w : world) (cwd : string)
    (ranged : list (string * string)) (key : string) :
  getwd w = Ok cwd -> mkdir_error w (base_dir cwd) = None ->
  has_key (catalog w (managed cwd "en.json")) key = false ->
  files (snd (runRemove ranged key w)) = files w
  /\ stdout (snd (runRemove ranged key w))
     = stdout w ++ [LUsingBasePath (base_dir cwd); LKeyMissingRemove key].
Proof.
  intros Hcwd Hmk Hk. by rewrite (runRemove_turned_down w cwd ranged Hcwd Hmk).
Qed.

Lemma remove_missing_key_rejected_witness :
  files (snd (runRemove languages "farewell" greeted_world)) = files greeted_world
  /\ stdout (snd (runRemove languages "farewell" greeted_world))
     = stdout greeted_world
       ++ [LUsingBasePath (base_dir "/srv/app"); LKeyMissingRemove "farewell"].
Proof.
  apply (remove_missing_key_rejected greeted_world "/srv/app" languages "farewell");
    vm_compute; reflexivity.
Defined.



(** ** [runList] *)

Lemma sorted_keys_length (m : gmap string string) :
  length (Json.sorted_keys m) = size m.
Proof. by rewrite sorted_keys_perm, <- size_dom. Qed.

(** [runList], setup succeeding: after the base path it prints the
    no-keys line for an empty [en.json] catalog (also when the file is
    missing, unreadable or not a JSON object of strings), and otherwise the
    number of keys and one line per key with its value, the keys in strictly
    ascending byte order. *)
Theorem list_prints_sorted_entries (w : world) (cwd : string) :
  getwd w = Ok cwd -> mkdir_error w (base_dir cwd) = None ->
  exists keys,
    keys ≡ₚ elements (dom (catalog w (managed cwd "en.json")))
    /\ StronglySorted (fun a b => String.ltb a b = true) keys
    /\ stdout (snd (runList w))
       = stdout w ++ LUsingBasePath (base_dir cwd)
         :: match keys with
            | [] => [LNoKeys]
            | _ => LFound (length keys)
                   :: map (fun k => LEntry k (default EmptyString
                                        (catalog w (managed cwd "en.json") !! k))) keys
            end.
Proof.
  intros Hcwd Hmk. exists (Json.sorted_keys (catalog w (managed cwd "en.json"))).
  split; [apply sorted_keys_perm|]. split; [apply sorted_keys_ascending|].
  rewrite (runList_ok w cwd Hcwd Hmk). simpl. do 2 f_equal. unfold listing.
  rewrite <- sorted_keys_length.
  by destruct (Json.sorted_keys (catalog w (managed cwd "en.json"))).
Qed.

Lemma list_prints_sorted_entries_witness :
  exists keys,
    keys ≡ₚ elements (dom (catalog greeted_world (managed "/srv/app" "en.json")))
    /\ StronglySorted (fun a b => String.ltb a b = true) keys
    /\ stdout (snd (runList greeted_world))
       = stdout greeted_world ++ LUsingBasePath (base_dir "/srv/app")
         :: match keys with
            | [] => [LNoKeys]
            | _ => LFound (length keys)
                   :: map (fun k => LEntry k (default EmptyString
                       (catalog greeted_world (managed "/srv/app" "en.json") !! k))) keys
            end.
Proof.
  apply (list_prints_sorted_entries greeted_world "/srv/app"); vm_compute; reflexivity.
Defined.

(** [runList] in any world, setup failing or not: it changes no file, and
    running it again prints the same lines again. *)
Theorem list_read_only_repeatable (w : world) :
  files (snd (runList w)) = files w
  /\ exists out,
       stdout (snd (runList w)) = stdout w ++ out
       /\ stdout (snd (runList (snd (runList w)))) = stdout w ++ out ++ out.
Proof.
  destruct (runList_snd w) as (b & out & -> & Hagain).
  split; [done|]. exists out. split; [done|].
  rewrite (Hagain (stdout w ++ out)). simpl. by rewrite <- app_assoc.
Qed.

(** ** What the commands write *)

(** [runAdd] of a key that is valid UTF-8 and new to [en.json], setup
    succeeding and every managed catalog writable and readable: whatever
    the order of the loop, each managed catalog becomes the one before with
    the key set, to the given value for [en.json] and to the translation
    or, when translating fails, the given value for the others, invalid
    bytes of the value replaced by U+FFFD; every other key keeps its value. *)
Theorem add_writes_every_catalog (w : world) (cwd : string)
    (ranged : list (string * string)) (key value : string) :
  ready cwd w -> ranged ≡ₚ languages -> Utf8.ValidString key = true ->
  has_key (catalog w (managed cwd "en.json")) key = false ->
  Forall (fun l : string * string =>
            catalog (snd (runAdd ranged key value w)) (managed cwd (fst l))
            = <[key := Utf8.coerce (stored_value w value l)]>
                (catalog w (managed cwd (fst l))))
         languages.
Proof. apply runAdd_catalogs. Qed.

Lemma ready_empty_world : ready "/srv/app" empty_world.
Proof.
  split; [reflexivity|]. split; [reflexivity|].
  repeat constructor; vm_compute; reflexivity.
Defined.

Lemma ready_greeted_world : ready "/srv/app" greeted_world.
Proof.
  split; [reflexivity|]. split; [reflexivity|].
  repeat constructor; vm_compute; reflexivity.
Defined.

Lemma add_writes_every_catalog_witness :
  Forall (fun l : string * string =>
            catalog (snd (runAdd languages "greeting" "Hello" empty_world))
                    (managed "/srv/app" (fst l))
            = <["greeting" := Utf8.coerce (stored_value empty_world "Hello" l)]>
                (catalog empty_world (managed "/srv/app" (fst l))))
         languages.
Proof.
  apply (add_writes_every_catalog empty_world "/srv/app" languages "greeting" "Hello").
  - exact ready_empty_world.
  - reflexivity.
  - vm_compute; reflexivity.
  - vm_compute; reflexivity.
Defined.

(** [runUpdate] of a key that is valid UTF-8 and held by [en.json], under
    the same conditions: each managed catalog becomes the one before with
    the key set anew, to the value for [en.json] and to its translation (or
    the value itself) for the others; every other key keeps its value, and
    a catalog that lacked the key gains it. *)
Theorem update_writes_every_catalog (w : world) (cwd : string)
    (ranged : list (string * string)) (key value : string) :
  ready cwd w -> ranged ≡ₚ languages -> Utf8.ValidString key = true ->
  has_key (catalog w (managed cwd "en.json")) key = true ->
  Forall (fun l : string * string =>
            catalog (snd (runUpdate ranged key value w)) (managed cwd (fst l))
            = <[key := Utf8.coerce (stored_value w value l)]>
                (catalog w (managed cwd (fst l))))
         languages.
Proof. apply runUpdate_catalogs. Qed.

Lemma update_writes_every_catalog_witness :
  Forall (fun l : string * string =>
            catalog (snd (runUpdate languages "greeting" "Hi" greeted_world))
                    (managed "/srv/app" (fst l))
            = <["greeting" := Utf8.coerce (stored_value greeted_world "Hi" l)]>
                (catalog greeted_world (managed "/srv/app" (fst l))))
         languages.
Proof.
  apply (update_writes_every_catalog greeted_world "/srv/app" languages "greeting" "Hi").
  - exact ready_greeted_world.
  - reflexivity.
  - vm_compute; reflexivity.
  - vm_compute; reflexivity.
Defined.

(** [runRemove] of a key held by [en.json], setup succeeding and every
    managed catalog writable and readable: whatever the order of the loop,
    each managed catalog becomes the one before without the key, every
    other key keeping its value. *)
Theorem remove_deletes_everywhere (w : world) (cwd : string)
    (ranged : list (string * string)) (key : string) :
  ready cwd w -> ranged ≡ₚ languages ->
  has_key (catalog w (managed cwd "en.json")) key = true ->
  Forall (fun l : string * string =>
            catalog (snd (runRemove ranged key w)) (managed cwd (fst l))
            = delete key (catalog w (managed cwd (fst l))))
         languages.
Proof. apply runRemove_catalogs. Qed.

Lemma remove_deletes_everywhere_witness :
  Forall (fun l : string * string =>
            catalog (snd (runRemove languages "greeting" greeted_world))
                    (managed "/srv/app" (fst l))
            = delete "greeting" (catalog greeted_world (managed "/srv/app" (fst l))))
         languages.
Proof.
  apply (remove_deletes_everywhere greeted_world "/srv/app" languages "greeting").
  - exact ready_greeted_world.
  - reflexivity.
  - vm_compute; reflexivity.
Defined.

(** ** What no command does *)

(** Whatever the invocation, the order of the loop and the world: the
    working directory, the permissions and the translation service are as
    before, the files that could be saved or read back are the same, and
    every file that existed still exists with the permissions it had. *)
Theorem commands_keep_files_and_permissions
    (ranged : list (string * string)) (inv : invocation) (w : world) :
  steady w (snd (main ranged inv w)).
Proof. apply main_steady. Qed.



(** ** Reversal of strings *)

Lemma rev_app_spec s1 s2 : String.rev_app s1 s2 = String.rev s1 +:+ s2.
Proof.
  revert s2. induction s1 as [|c s1 IH]; intros s2; [done|].
  unfold String.rev. simpl. rewrite !IH, sapp_assoc. done.
Qed.

Lemma rev_cons c s : String.rev (String c s) = String.rev s +:+ String c EmptyString.
Proof. unfold String.rev. simpl. by rewrite !rev_app_spec, sapp_nil_r. Qed.

Lemma rev_sapp s t : String.rev (s +:+ t) = String.rev t +:+ String.rev s.
Proof.
  induction s as [|c s IH]; [by rewrite sapp_nil_l, sapp_nil_r|].
  by rewrite sapp_cons, !rev_cons, IH, sapp_assoc.
Qed.

Lemma rev_involutive s : String.rev (String.rev s) = s.
Proof.
  induction s as [|c s IH]; [done|]. by rewrite rev_cons, rev_sapp, IH.
Qed.

Lemma rev_empty s : String.rev s = EmptyString -> s = EmptyString.
Proof. intros H. apply (f_equal String.rev) in H. by rewrite rev_involutive in H. Qed.

(** ** Paths of the managed files *)

Lemma plain_sapp s t : plain (s +:+ t) = plain s && plain t.
Proof.
  induction s as [|c s IH]; [done|]. rewrite sapp_cons. simpl.
  by rewrite IH, andb_assoc.
Qed.

Lemma plain_rev s : plain (String.rev s) = plain s.
Proof.
  induction s as [|c s IH]; [done|]. rewrite rev_cons, plain_sapp, IH. simpl.
  rewrite andb_true_r. apply andb_comm.
Qed.

Lemma until_sep_plain s c r :
  plain s = true -> Filepath.is_sep c = true ->
  Filepath.until_sep (s +:+ String c r) = s.
Proof.
  intros Hs Hc. induction s as [|a s IH]; simpl; [by rewrite Hc|].
  simpl in Hs. apply andb_true_iff in Hs as [Ha Hs].
  apply negb_true_iff in Ha. rewrite Ha. by rewrite IH.
Qed.

Lemma until_sep_all s : plain s = true -> Filepath.until_sep s = s.
Proof.
  intros Hs. induction s as [|a s IH]; [done|]. simpl in *.
  apply andb_true_iff in Hs as [Ha Hs]. apply negb_true_iff in Ha.
  rewrite Ha. by rewrite IH.
Qed.


Lemma strip_seps_plain s t :
  plain s = true -> s <> EmptyString -> Filepath.strip_seps (s +:+ t) = s +:+ t.
Proof.
  destruct s as [|a s]; [done|]. intros Hs _. simpl in *.
  apply andb_true_iff in Hs as [Ha _]. apply negb_true_iff in Ha. by rewrite Ha.
Qed.

Lemma slash_is_sep : Filepath.is_sep "/" = true.
Proof. reflexivity. Qed.

(** The reversed joined path: the reversed file name, then a separator. *)
Lemma rev_Join base file :
  base <> EmptyString ->
  exists c r, Filepath.is_sep c = true
    /\ String.rev (Filepath.Join base file) = String.rev file +:+ String c r
    /\ (match String.rev base with
        | String a _ => Filepath.is_sep a = false
        | EmptyString => False
        end -> String c r = String "/" (String.rev base)).
Proof.
  intros Hb. unfold Filepath.Join.
  destruct (String.rev base) as [|a r] eqn:Hr; [by apply rev_empty in Hr|].
  destruct (Filepath.is_sep a) eqn:Ha.
  - exists a, r. split; [done|]. split; [by rewrite rev_sapp, Hr|]. done.
  - exists "/"%char, (String a r). split; [done|].
    split; [|done]. by rewrite !rev_sapp, Hr, sapp_assoc.
Qed.

Lemma Base_Join base file :
  file_name file = true -> Filepath.Base (Filepath.Join base file) = file.
Proof.
  intros Hf. apply andb_true_iff in Hf as [Hp Hne].
  assert (Hfile : file <> EmptyString) by by destruct file.
  assert (Hrev : String.rev file <> EmptyString) by by intros H%rev_empty.
  assert (Hlast : forall t, String.rev (Filepath.until_sep (Filepath.strip_seps
                    (String.rev file +:+ t))) = file ->
                  forall p, p <> EmptyString -> String.rev p = String.rev file +:+ t ->
                  Filepath.Base p = file).
  { intros t Ht p Hp' Hrp. unfold Filepath.Base. destruct p as [|c p]; [done|].
    rewrite Hrp, Ht. by destruct file. }
  destruct (decide (base = EmptyString)) as [->|Hb].
  - apply (Hlast EmptyString); [|done|by rewrite sapp_nil_r].
    rewrite sapp_nil_r, <- (sapp_nil_r (String.rev file)).
    rewrite strip_seps_plain by (done || by rewrite plain_rev).
    rewrite sapp_nil_r, until_sep_all by by rewrite plain_rev.
    apply rev_involutive.
  - destruct (rev_Join base file Hb) as (c & r & Hc & Hr & _).
    apply (Hlast (String c r)); [| |done].
    + rewrite strip_seps_plain by (done || by rewrite plain_rev).
      rewrite until_sep_plain by (done || by rewrite plain_rev).
      apply rev_involutive.
    + intros H. rewrite H in Hr. simpl in Hr. by destruct (String.rev file).
Qed.




Lemma languages_file_names : Forall (fun l : string * string => file_name (fst l) = true) languages.
Proof. repeat constructor. Qed.

(** ** The lines of the loops *)

Lemma stdout_saved path data w : stdout (saved path data w) = stdout w.
Proof. rewrite saved_unfold. by destruct (save_error w path). Qed.

Lemma report_net w w' value l :
  http_get w' = http_get w -> report w' value l = report w value l.
Proof.
  intros H. unfold report.
  by rewrite (googleTranslate_net w w'), (stored_value_net w w').
Qed.

Lemma add_body_stdout key value l w :
  file_name (fst l) = true ->
  stdout (snd (add_body key value l w)) = stdout w ++ report w value l.
Proof.
  destruct l as [file langCode]. intros Hf. simpl in Hf.
  unfold add_body, bind, get_basePath, report, stored_value. simpl.
  destruct (String.eqb file "en.json").
  - rewrite processAddOrUpdate_english. simpl. by rewrite Base_Join.
  - rewrite processAddOrUpdate_other. simpl. by rewrite Base_Join.
Qed.

Lemma add_loop_stdout base w0 key value (ranged : list (string * string)) : forall w,
  Forall (fun l : string * string => file_name (fst l) = true) ranged ->
  basePath w = base -> http_get w = http_get w0 ->
  stdout (snd (for_each ranged (add_body key value) w))
  = stdout w ++ concat (map (report w0 value) ranged).
Proof.
  induction ranged as [|l ranged IH]; intros w Hall Hbase Hnet; cbn [for_each].
  - simpl. by rewrite app_nil_r.
  - apply Forall_cons in Hall as [Hl Hall]. unfold bind.
    destruct (add_body_update base w0 key value l w Hbase Hnet) as (Hb & Hst & _).
    rewrite IH; [|done|done|destruct Hst as (_ & _ & _ & Hn & _); congruence].
    rewrite add_body_stdout by done. simpl.
    by rewrite (report_net w0 w), <- app_assoc.
Qed.

Lemma remove_body_stdout cwd key l w :
  basePath w = base_dir cwd ->
  stdout (snd (remove_body key l w)) = stdout w ++ [removal_line w cwd key l].
Proof.
  destruct l as [file langCode]. intros Hbase.
  unfold remove_body, bind, get_basePath, removal_line, managed. simpl.
  rewrite Hbase, loadJSON_spec. simpl.
  destruct (has_key (catalog w (Filepath.Join (base_dir cwd) file)) key); [|done].
  simpl. fold (saved (Filepath.Join (base_dir cwd) file)
                 (delete key (catalog w (Filepath.Join (base_dir cwd) file))) w).
  by rewrite stdout_saved.
Qed.

Lemma remove_loop_stdout cwd key (ranged : list (string * string)) : forall w,
  NoDup (fst <$> ranged) -> basePath w = base_dir cwd ->
  stdout (snd (for_each ranged (remove_body key) w))
  = stdout w ++ map (removal_line w cwd key) ranged.
Proof.
  induction ranged as [|l ranged IH]; intros w Hnd Hbase; cbn [for_each].
  - simpl. by rewrite app_nil_r.
  - rewrite fmap_cons in Hnd. apply NoDup_cons in Hnd as [Hnotin Hnd]. unfold bind.
    destruct (remove_body_update (base_dir cwd) (http_get w) key l w Hbase eq_refl)
      as (Hb & _ & Hframe & _).
    rewrite IH, (remove_body_stdout cwd) by done. rewrite <- app_assoc. simpl.
    do 2 f_equal. apply map_ext_in. intros l' Hin%list_elem_of_In.
    unfold removal_line. rewrite (catalog_ext w (snd (remove_body key l w))); [done|].
    apply Hframe. unfold managed. intros Heq. apply Join_inj in Heq.
    apply Hnotin. rewrite <- Heq. apply list_elem_of_fmap. eauto.
Qed.

Lemma remove_loop_skips base key file (ranged : list (string * string)) : forall w,
  basePath w = base ->
  has_key (catalog w (Filepath.Join base file)) key = false ->
  files (snd (for_each ranged (remove_body key) w)) !! Filepath.Join base file
  = files w !! Filepath.Join base file.
Proof.
  induction ranged as [|l ranged IH]; intros w Hbase Hk; cbn [for_each]; [done|].
  unfold bind.
  destruct (remove_body_update base (http_get w) key l w Hbase eq_refl)
    as (Hb & _ & Hframe & _).
  assert (Hsame : files (snd (remove_body key l w)) !! Filepath.Join base file
                  = files w !! Filepath.Join base file).
  { destruct (decide (fst l = file)) as [<-|Hne].
    - destruct l as [f c]. unfold remove_body, bind, get_basePath. simpl in *.
      rewrite Hbase, loadJSON_spec. simpl. by rewrite Hk.
    - apply Hframe. intros Heq. apply Join_inj in Heq. congruence. }
  rewrite IH; [done|done|]. by rewrite (catalog_ext w (snd (remove_body key l w))).
Qed.

(** ** Paths *)


(** ** What the loops print *)

(** [runAdd] of a key new to [en.json], setup succeeding: between the
    base path with a blank line and the closing line, it prints for each
    language in the order of the loop the translation failure, if any, and
    then the success line with the value meant for the catalog, whether or
    not that catalog could be saved. *)
Theorem add_reports_every_language (w : world) (cwd : string)
    (ranged : list (string * string)) (key value : string) :
  getwd w = Ok cwd -> mkdir_error w (base_dir cwd) = None ->
  ranged ≡ₚ languages ->
  has_key (catalog w (managed cwd "en.json")) key = false ->
  stdout (snd (runAdd ranged key value w))
  = stdout w ++ [LUsingBasePath (base_dir cwd); LBlank]
    ++ concat (map (report w value) ranged) ++ [LAddedAll].
Proof.
  intros Hcwd Hmk Hperm Hk. rewrite (runAdd_runs w cwd ranged Hcwd Hmk) by done.
  unfold closed. simpl.
  rewrite (add_loop_stdout (base_dir cwd) w key value ranged (started cwd w)); try done.
  - simpl. by rewrite <- !app_assoc.
  - rewrite Hperm. apply languages_file_names.
Qed.

Lemma add_reports_every_language_witness :
  stdout (snd (runAdd languages "greeting" "Hello" protected_world))
  = stdout protected_world ++ [LUsingBasePath (base_dir "/srv/app"); LBlank]
    ++ concat (map (report protected_world "Hello") languages) ++ [LAddedAll].
Proof.
  apply (add_reports_every_language protected_world "/srv/app" languages
           "greeting" "Hello"); vm_compute; reflexivity.
Defined.

(** [runUpdate] of a key held by [en.json], setup succeeding: it prints
    the same lines as [runAdd] does for a new key, one success line per
    language in the order of the loop, each preceded by the translation
    failure if there was one, and its own closing line. *)
Theorem update_reports_every_language (w : world) (cwd : string)
    (ranged : list (string * string)) (key value : string) :
  getwd w = Ok cwd -> mkdir_error w (base_dir cwd) = None ->
  ranged ≡ₚ languages ->
  has_key (catalog w (managed cwd "en.json")) key = true ->
  stdout (snd (runUpdate ranged key value w))
  = stdout w ++ [LUsingBasePath (base_dir cwd); LBlank]
    ++ concat (map (report w value) ranged) ++ [LUpdatedAll].
Proof.
  intros Hcwd Hmk Hperm Hk. rewrite (runUpdate_runs w cwd ranged Hcwd Hmk) by done.
  unfold closed. simpl.
  rewrite (add_loop_stdout (base_dir cwd) w key value ranged (started cwd w)); try done.
  - simpl. by rewrite <- !app_assoc.
  - rewrite Hperm. apply languages_file_names.
Qed.

Lemma update_reports_every_language_witness :
  stdout (snd (runUpdate languages "greeting" "Hi" greeted_world))
  = stdout greeted_world ++ [LUsingBasePath (base_dir "/srv/app"); LBlank]
    ++ concat (map (report greeted_world "Hi") languages) ++ [LUpdatedAll].
Proof.
  apply (update_reports_every_language greeted_world "/srv/app" languages
           "greeting" "Hi"); vm_compute; reflexivity.
Defined.

(** [runRemove] of a key held by [en.json], setup succeeding, no language
    file listed twice: between the base path with a blank line and the
    closing line, it prints exactly one line per language in the order of
    the loop, the removal line when the catalog of the language held the
    key at the start of the run, whether or not the catalog could be saved,
    and the not-found line otherwise. *)
Theorem remove_reports_every_language (w : world) (cwd : string)
    (ranged : list (string * string)) (key : string) :
  getwd w = Ok cwd -> mkdir_error w (base_dir cwd) = None ->
  NoDup (fst <$> ranged) ->
  has_key (catalog w (managed cwd "en.json")) key = true ->
  stdout (snd (runRemove ranged key w))
  = stdout w ++ [LUsingBasePath (base_dir cwd); LBlank]
    ++ map (removal_line w cwd key) ranged ++ [LRemovedAll].
Proof.
  intros Hcwd Hmk Hnd Hk. rewrite (runRemove_runs w cwd ranged Hcwd Hmk) by done.
  unfold closed. simpl.
  rewrite (remove_loop_stdout cwd key ranged (started cwd w)) by done.
  simpl. rewrite <- !app_assoc. simpl. do 4 f_equal.
  apply map_ext. intros l. unfold removal_line. by rewrite catalog_started.
Qed.

Lemma remove_reports_every_language_witness :
  stdout (snd (runRemove languages "greeting" greeted_world))
  = stdout greeted_world ++ [LUsingBasePath (base_dir "/srv/app"); LBlank]
    ++ map (removal_line greeted_world "/srv/app" "greeting") languages ++ [LRemovedAll].
Proof.
  apply (remove_reports_every_language greeted_world "/srv/app" languages "greeting").
  - reflexivity.
  - reflexivity.
  - apply (bool_decide_unpack _). vm_compute. reflexivity.
  - vm_compute. reflexivity.
Defined.

(** [runRemove] never writes the file of a language whose catalog does not
    hold the key: whatever the loop ranges over and whether or not setup
    succeeds, that path holds after the run what it held before. *)
Theorem remove_skips_catalog_without_key (w : world) (cwd : string)
    (ranged : list (string * string)) (key file : string) :
  getwd w = Ok cwd ->
  has_key (catalog w (managed cwd file)) key = false ->
  files (snd (runRemove ranged key w)) !! managed cwd file
  = files w !! managed cwd file.
Proof.
  intros Hcwd Hk.
  destruct (mkdir_error w (base_dir cwd)) as [e|] eqn:Hmk.
  { unfold runRemove, bind. by rewrite (initBasePath_refused w cwd e). }
  destruct (has_key (catalog w (managed cwd "en.json")) key) eqn:Hen.
  - rewrite (runRemove_runs w cwd ranged Hcwd Hmk) by done. unfold closed. simpl.
    unfold managed. rewrite remove_loop_skips; [done|done|].
    by rewrite catalog_started.
  - by rewrite (runRemove_turned_down w cwd ranged Hcwd Hmk).
Qed.

Lemma remove_skips_catalog_without_key_witness :
  files (snd (runRemove languages "greeting" greeted_world)) !! managed "/srv/app" "km.json"
  = files greeted_world !! managed "/srv/app" "km.json".
Proof.
  apply (remove_skips_catalog_without_key greeted_world "/srv/app" languages
           "greeting" "km.json"); vm_compute; reflexivity.
Defined.

(** ** Commands in sequence *)

Lemma runAdd_steady ranged key value w : steady w (snd (runAdd ranged key value w)).
Proof. apply (main_steady ranged (Add key value) w). Qed.

Lemma runUpdate_steady ranged key value w : steady w (snd (runUpdate ranged key value w)).
Proof. apply (main_steady ranged (Update key value) w). Qed.

Lemma en_in_languages : ("en.json", "en") ∈ languages.
Proof. apply list_elem_of_here. Qed.

Lemma has_key_insert key v (m : gmap string string) : has_key (<[key := v]> m) key = true.
Proof. apply has_key_dom. rewrite dom_insert_L. set_solver. Qed.

(** [runAdd] of a new key followed by [runRemove] of the same key, setup
    succeeding and every managed catalog writable and readable, whatever
    the orders of the two loops and the answers of the translation service:
    [en.json] holds the catalog it held before the two commands, and every
    managed catalog holds the one it held before without the key. *)
Theorem add_then_remove_restores (w : world) (cwd : string)
    (ranged1 ranged2 : list (string * string)) (key value : string) :
  ready cwd w -> ranged1 ≡ₚ languages -> ranged2 ≡ₚ languages ->
  Utf8.ValidString key = true ->
  has_key (catalog w (managed cwd "en.json")) key = false ->
  let w' := snd (runRemove ranged2 key (snd (runAdd ranged1 key value w))) in
  catalog w' (managed cwd "en.json") = catalog w (managed cwd "en.json")
  /\ Forall (fun l : string * string =>
               catalog w' (managed cwd (fst l)) = delete key (catalog w (managed cwd (fst l))))
            languages.
Proof.
  intros Hready H1 H2 Hkey Hk. cbv zeta.
  pose proof (runAdd_catalogs w cwd ranged1 key value Hready H1 Hkey Hk) as Hadd.
  assert (Hready' : ready cwd (snd (runAdd ranged1 key value w)))
    by (eapply ready_steady; [done|apply runAdd_steady]).
  assert (Hk' : has_key (catalog (snd (runAdd ranged1 key value w))
                           (managed cwd "en.json")) key = true).
  { rewrite Forall_forall in Hadd. pose proof (Hadd _ en_in_languages) as Hen.
    cbn [fst] in Hen. rewrite Hen. apply has_key_insert. }
  pose proof (runRemove_catalogs _ cwd ranged2 key Hready' H2 Hk') as Hrem.
  assert (Hall : Forall (fun l : string * string =>
            catalog (snd (runRemove ranged2 key (snd (runAdd ranged1 key value w))))
                    (managed cwd (fst l))
            = delete key (catalog w (managed cwd (fst l)))) languages).
  { rewrite Forall_forall in Hadd, Hrem |- *. intros l Hin.
    by rewrite (Hrem l Hin), (Hadd l Hin), delete_insert_eq. }
  split; [|done]. rewrite Forall_forall in Hall.
  pose proof (Hall _ en_in_languages) as Hen. cbn [fst] in Hen. rewrite Hen.
  apply delete_id, eq_None_not_Some. intros Hs.
  apply elem_of_dom, has_key_dom in Hs. congruence.
Qed.

Lemma add_then_remove_restores_witness :
  let w' := snd (runRemove languages "greeting"
                   (snd (runAdd languages "greeting" "Hello" empty_world))) in
  catalog w' (managed "/srv/app" "en.json") = catalog empty_world (managed "/srv/app" "en.json")
  /\ Forall (fun l : string * string =>
               catalog w' (managed "/srv/app" (fst l))
               = delete "greeting" (catalog empty_world (managed "/srv/app" (fst l))))
            languages.
Proof.
  apply (add_then_remove_restores empty_world "/srv/app" languages languages
           "greeting" "Hello").
  - exact ready_empty_world.
  - reflexivity.
  - reflexivity.
  - vm_compute; reflexivity.
  - vm_compute; reflexivity.
Defined.

(** Two [runUpdate]s of the same key in a row, under the same conditions
    and with the translation service answering alike: the managed catalogs
    are those a single run of the second update leaves; the first value is
    overwritten everywhere, and an update run twice changes nothing the
    second time. *)
Theorem later_update_wins (w : world) (cwd : string)
    (ranged1 ranged2 ranged3 : list (string * string)) (key value1 value2 : string) :
  ready cwd w ->
  ranged1 ≡ₚ languages -> ranged2 ≡ₚ languages -> ranged3 ≡ₚ languages ->
  Utf8.ValidString key = true ->
  has_key (catalog w (managed cwd "en.json")) key = true ->
  Forall (fun l : string * string =>
            catalog (snd (runUpdate ranged2 key value2
                            (snd (runUpdate ranged1 key value1 w))))
                    (managed cwd (fst l))
            = catalog (snd (runUpdate ranged3 key value2 w)) (managed cwd (fst l)))
         languages.
Proof.
  intros Hready H1 H2 H3 Hkey Hk.
  pose proof (runUpdate_catalogs w cwd ranged1 key value1 Hready H1 Hkey Hk) as Hfirst.
  pose proof (runUpdate_catalogs w cwd ranged3 key value2 Hready H3 Hkey Hk) as Hone.
  pose proof (runUpdate_steady ranged1 key value1 w) as Hst.
  assert (Hready' : ready cwd (snd (runUpdate ranged1 key value1 w)))
    by by eapply ready_steady.
  assert (Hk' : has_key (catalog (snd (runUpdate ranged1 key value1 w))
                           (managed cwd "en.json")) key = true).
  { rewrite Forall_forall in Hfirst. pose proof (Hfirst _ en_in_languages) as Hen.
    cbn [fst] in Hen. rewrite Hen. apply has_key_insert. }
  pose proof (runUpdate_catalogs _ cwd ranged2 key value2 Hready' H2 Hkey Hk') as Hsecond.
  rewrite Forall_forall in Hfirst, Hone, Hsecond |- *. intros l Hin.
  rewrite (Hsecond l Hin), (Hfirst l Hin), (Hone l Hin), insert_insert_eq.
  rewrite (stored_value_net w); [done|].
  by destruct Hst as (_ & _ & _ & Hn & _).
Qed.

Lemma later_update_wins_witness :
  Forall (fun l : string * string =>
            catalog (snd (runUpdate languages "greeting" "Hi"
                            (snd (runUpdate languages "greeting" "Hey" greeted_world))))
                    (managed "/srv/app" (fst l))
            = catalog (snd (runUpdate languages "greeting" "Hi" greeted_world))
                      (managed "/srv/app" (fst l)))
         languages.
Proof.
  apply (later_update_wins greeted_world "/srv/app" languages languages languages
           "greeting" "Hey" "Hi").
  - exact ready_greeted_world.
  - reflexivity.
  - reflexivity.
  - reflexivity.
  - vm_compute; reflexivity.
  - vm_compute; reflexivity.
Defined.

(** ** Loading and saving *)

(** Whatever the file holds, every key and every value of the catalog
    [loadJSON] returns is valid UTF-8. *)
Theorem load_returns_valid_utf8 (w : world) (path : string) :
  valid_catalog (fst (loadJSON path w)).
Proof. rewrite loadJSON_spec. apply catalog_valid. Qed.

(** Once a catalog has been saved and read back, saving what was read and
    reading again returns it unchanged, whatever the first catalog held:
    only the first round trip can alter a catalog. *)
Theorem second_round_trip_is_identity (w : world) (path : string)
    (data : gmap string string) :
  fst (saveJSON path data w) = None ->
  readable_or_absent w path = true ->
  let w1 := snd (saveJSON path data w) in
  let data1 := fst (loadJSON path w1) in
  fst (saveJSON path data1 w1) = None
  /\ fst (loadJSON path (snd (saveJSON path data1 w1))) = data1.
Proof.
  intros Hs Hr. cbv zeta. fold (saved path data w).
  rewrite fst_saveJSON in Hs.
  assert (Hs1 : save_error (saved path data w) path = None)
    by by rewrite save_error_saved.
  assert (Hr1 : readable_or_absent (saved path data w) path = true)
    by by rewrite readable_saved.
  split; [by rewrite fst_saveJSON|].
  rewrite load_after_save by (done || by rewrite fst_saveJSON).
  apply reloaded_valid. rewrite loadJSON_spec. apply catalog_valid.
Qed.

Lemma second_round_trip_is_identity_witness :
  let w1 := snd (saveJSON en_path (<["a" := invalid_text]> ∅) empty_world) in
  let data1 := fst (loadJSON en_path w1) in
  fst (saveJSON en_path data1 w1) = None
  /\ fst (loadJSON en_path (snd (saveJSON en_path data1 w1))) = data1.
Proof.
  apply (second_round_trip_is_identity empty_world en_path (<["a" := invalid_text]> ∅));
    vm_compute; reflexivity.
Defined.

(** Two different catalogs of valid UTF-8 are never written as the same
    bytes. *)
Theorem distinct_catalogs_distinct_bytes (data1 data2 : gmap string string) :
  valid_catalog data1 -> valid_catalog data2 -> data1 <> data2 ->
  Json.MarshalIndent data1 <> Json.MarshalIndent data2.
Proof.
  intros H1 H2 Hne Heq. apply Hne.
  apply (f_equal Json.Unmarshal) in Heq. rewrite !Unmarshal_MarshalIndent in Heq.
  injection Heq as Heq. by rewrite !reloaded_valid in Heq.
Qed.

Lemma hello_catalog_valid_utf8 : valid_catalog hello_catalog.
Proof.
  intros k v. unfold hello_catalog. rewrite lookup_insert.
  case_decide as Hk; [|by rewrite lookup_empty]. intros [= <-]. by subst k.
Defined.

Lemma distinct_catalogs_distinct_bytes_witness :
  Json.MarshalIndent hello_catalog <> Json.MarshalIndent two_keys.
Proof.
  apply (distinct_catalogs_distinct_bytes hello_catalog two_keys).
  - exact hello_catalog_valid_utf8.
  - exact two_keys_valid.
  - intros H. apply (f_equal (fun m : gmap string string => m !! "a")) in H.
    vm_compute in H. discriminate H.
Defined.

(** ** Trimming *)

Lemma trim_left_suffix f s : forall k, exists pre, s = pre +:+ Strings.trim_left_from f k s.
Proof.
  induction s as [|c s IH]; intros k; [by exists EmptyString|]. simpl.
  destruct k as [|k].
  - destruct (f (fst (Utf8.DecodeRune (String c s)))); [|by exists EmptyString].
    destruct (IH (Nat.pred (snd (Utf8.DecodeRune (String c s))))) as [pre Hpre].
    exists (String c pre). by rewrite sapp_cons, <- Hpre.
  - destruct (IH k) as [pre Hpre]. exists (String c pre). by rewrite sapp_cons, <- Hpre.
Qed.

Lemma trim_left_head f s : forall k,
  Strings.trim_left_from f k s = EmptyString
  \/ f (fst (Utf8.DecodeRune (Strings.trim_left_from f k s))) = false.
Proof.
  induction s as [|c s IH]; intros k; [by left|]. simpl. destruct k as [|k]; [|apply IH].
  destruct (f (fst (Utf8.DecodeRune (String c s)))) eqn:Hf; [apply IH|by right].
Qed.

Lemma trim_right_suffix f rs : forall k,
  exists pre, rs = pre +:+ Strings.trim_right_from f k rs.
Proof.
  induction rs as [|c s IH]; intros k; [by exists EmptyString|].
  cbn [Strings.trim_right_from]. destruct k as [|k].
  - destruct (f (fst (Strings.DecodeLastRune (String c s)))); [|by exists EmptyString].
    destruct (IH (Nat.pred (snd (Strings.DecodeLastRune (String c s))))) as [pre Hpre].
    exists (String c pre). by rewrite sapp_cons, <- Hpre.
  - destruct (IH k) as [pre Hpre]. exists (String c pre). by rewrite sapp_cons, <- Hpre.
Qed.

Lemma trim_right_head f rs : forall k,
  Strings.trim_right_from f k rs = EmptyString
  \/ f (fst (Strings.DecodeLastRune (Strings.trim_right_from f k rs))) = false.
Proof.
  induction rs as [|c s IH]; intros k; [by left|].
  cbn [Strings.trim_right_from]. destruct k as [|k]; [|apply IH].
  destruct (f (fst (Strings.DecodeLastRune (String c s)))) eqn:Hf; [apply IH|by right].
Qed.

Lemma DecodeRune_ascii c r :
  (byte_val c <? Utf8.RuneSelf) = true ->
  Utf8.DecodeRune (String c r) = (byte_val c, 1%nat).
Proof.
  intros H. unfold Utf8.DecodeRune, Utf8.first.
  change Utf8.RuneSelf with 0x80 in H. by rewrite H.
Qed.

Lemma DecodeLastRune_ascii c r :
  (byte_val c <? Utf8.RuneSelf) = true ->
  Strings.DecodeLastRune (String c r) = (byte_val c, 1%nat).
Proof. intros H. unfold Strings.DecodeLastRune. by rewrite H. Qed.

(** The text [strings.TrimSpace] returns is a part of its argument that
    neither begins nor ends with an ASCII white-space byte. *)
Lemma TrimSpace_margins s :
  (exists pre post, s = pre +:+ Strings.TrimSpace s +:+ post)
  /\ (forall c r, Strings.TrimSpace s = String c r -> ascii_space c = false)
  /\ (forall c r, String.rev (Strings.TrimSpace s) = String c r -> ascii_space c = false).
Proof.
  unfold Strings.TrimSpace, Strings.TrimFunc, Strings.TrimRightFunc, Strings.TrimLeftFunc.
  set (t := Strings.trim_left_from Strings.IsSpace 0 s).
  set (r0 := Strings.trim_right_from Strings.IsSpace 0 (String.rev t)).
  destruct (trim_left_suffix Strings.IsSpace s 0) as [pre Hpre]. fold t in Hpre.
  destruct (trim_right_suffix Strings.IsSpace (String.rev t) 0) as [post Hpost].
  fold r0 in Hpost.
  assert (Ht : t = String.rev r0 +:+ String.rev post).
  { rewrite <- rev_sapp, <- Hpost. by rewrite rev_involutive. }
  split; [exists pre, (String.rev post); by rewrite <- Ht|]. split.
  - intros c r Hc. unfold ascii_space.
    destruct (byte_val c <? Utf8.RuneSelf) eqn:Hlt; [|done]. simpl.
    rewrite Hc, sapp_cons in Ht.
    destruct (trim_left_head Strings.IsSpace s 0) as [He|Hf].
    + fold t in He. by rewrite Ht in He.
    + fold t in Hf. by rewrite Ht, DecodeRune_ascii in Hf.
  - rewrite rev_involutive. intros c r Hc. unfold ascii_space.
    destruct (byte_val c <? Utf8.RuneSelf) eqn:Hlt; [|done]. simpl.
    destruct (trim_right_head Strings.IsSpace (String.rev t) 0) as [He|Hf].
    + fold r0 in He. by rewrite Hc in He.
    + fold r0 in Hf. by rewrite Hc, DecodeLastRune_ascii in Hf.
Qed.

(** ** The translation service *)

Lemma googleTranslate_ok text lang w t :
  fst (googleTranslate text lang w) = Ok t ->
  exists doc, http_get w lang text = Response 200 (BodyBytes doc)
              /\ parse_response doc = Ok t.
Proof.
  unfold googleTranslate. destruct (http_get w lang text) as [e|status body]; [done|].
  destruct (status =? 200) eqn:Hst; simpl; [|done].
  apply N.eqb_eq in Hst as ->. destruct body as [e|doc]; [done|]. eauto.
Qed.

Lemma parse_response_trimmed doc t :
  parse_response doc = Ok t -> exists s, t = Strings.TrimSpace s.
Proof.
  unfold parse_response. destruct (Unmarshal_slice doc) as [[|x rest]|e]; try done.
  destruct (as_slice x) as [[|y ys]|]; try done. intros [= <-]. eauto.
Qed.

(** [googleTranslate] returns a translation only for a response of status
    200 whose body could be read and parsed, and leaves the world as it
    was; a failed request, any other status or a body that cannot be read
    never yields one. *)
Theorem translation_only_from_ok_response (w : world) (text lang t : string) :
  fst (googleTranslate text lang w) = Ok t ->
  snd (googleTranslate text lang w) = w
  /\ exists doc, http_get w lang text = Response 200 (BodyBytes doc)
                 /\ parse_response doc = Ok t.
Proof.
  intros H. split; [apply googleTranslate_world|by apply googleTranslate_ok].
Qed.

Lemma translation_only_from_ok_response_witness :
  snd (googleTranslate "Hello" "km" protected_world) = protected_world
  /\ exists doc, http_get protected_world "km" "Hello" = Response 200 (BodyBytes doc)
                 /\ parse_response doc = Ok "Bonjour".
Proof.
  apply (translation_only_from_ok_response protected_world "Hello" "km" "Bonjour").
  vm_compute. reflexivity.
Defined.

(** A translation returned by [googleTranslate] neither begins nor ends
    with a tab, a line break, a vertical tab, a form feed or a space. *)
Theorem translation_is_trimmed (w : world) (text lang t : string) :
  fst (googleTranslate text lang w) = Ok t ->
  (forall c r, t = String c r -> ascii_space c = false)
  /\ (forall c r, String.rev t = String c r -> ascii_space c = false).
Proof.
  intros (doc & _ & Hp)%googleTranslate_ok.
  apply parse_response_trimmed in Hp as [s ->].
  by destruct (TrimSpace_margins s) as (_ & H1 & H2).
Qed.

Lemma translation_is_trimmed_witness :
  (forall c r, "Bonjour" = String c r -> ascii_space c = false)
  /\ (forall c r, String.rev "Bonjour" = String c r -> ascii_space c = false).
Proof.
  apply (translation_is_trimmed protected_world "Hello" "km" "Bonjour").
  vm_compute. reflexivity.
Defined.

(** [runAdd] of a new key while the translation service gives no
    status-200 response with a readable body to any request, under the
    conditions of a successful run: every managed catalog receives the
    source value under the key, invalid bytes replaced by U+FFFD. *)
Theorem unanswered_service_stores_source (w : world) (cwd : string)
    (ranged : list (string * string)) (key value : string) :
  ready cwd w -> ranged ≡ₚ languages -> Utf8.ValidString key = true ->
  has_key (catalog w (managed cwd "en.json")) key = false ->
  (forall lang doc, http_get w lang value <> Response 200 (BodyBytes doc)) ->
  Forall (fun l : string * string =>
            catalog (snd (runAdd ranged key value w)) (managed cwd (fst l))
            = <[key := Utf8.coerce value]> (catalog w (managed cwd (fst l))))
         languages.
Proof.
  intros Hready Hperm Hkey Hk Hnet.
  eapply Forall_impl; [apply (runAdd_catalogs w cwd ranged key value); done|].
  intros l ->. do 2 f_equal. unfold stored_value, translated_or_value.
  destruct (String.eqb (fst l) "en.json"); [done|].
  destruct (fst (googleTranslate value (snd l) w)) as [t|e] eqn:Ht; [|done].
  apply googleTranslate_ok in Ht as (doc & Hdoc & _). by destruct (Hnet (snd l) doc).
Qed.

Lemma unanswered_service_stores_source_witness :
  Forall (fun l : string * string =>
            catalog (snd (runAdd languages "greeting" "Hello" empty_world))
                    (managed "/srv/app" (fst l))
            = <["greeting" := Utf8.coerce "Hello"]>
                (catalog empty_world (managed "/srv/app" (fst l))))
         languages.
Proof.
  apply (unanswered_service_stores_source empty_world "/srv/app" languages
           "greeting" "Hello").
  - exact ready_empty_world.
  - reflexivity.
  - vm_compute; reflexivity.
  - vm_compute; reflexivity.
  - intros lang doc. simpl. discriminate.
Defined.

(** ** The bytes of a saved catalog *)

Lemma all_ascii_valid s : all_ascii s = true -> Utf8.ValidString s = true.
Proof.
  induction s as [|c s IH]; [done|]. simpl. intros [Hc Hs]%andb_true_iff.
  change (String c s) with (String c EmptyString +:+ s).
  apply valid_app; [|by apply IH]. apply valid_ascii. by apply N.ltb_lt.
Qed.

Lemma hex_digit_ascii n : (byte_val (Json.hex_digit n) <? Utf8.RuneSelf) = true.
Proof.
  unfold Json.hex_digit, Json.hex. generalize (N.to_nat n). intros k.
  do 16 (destruct k as [|k]; [reflexivity|]). reflexivity.
Qed.

Lemma escape_ascii_valid c :
  (byte_val c <? Utf8.RuneSelf) = true -> Utf8.ValidString (Json.escape_ascii c) = true.
Proof.
  intros Hc. apply all_ascii_valid. unfold Json.escape_ascii.
  repeat case_match; simpl; rewrite ?Hc, ?hex_digit_ascii; reflexivity.
Qed.

Lemma appendString_from_valid n : forall s,
  (slen s <= n)%nat -> Utf8.ValidString (Json.appendString_from 0 s) = true.
Proof.
  induction n as [|n IH]; intros [|c rest] Hn; try done; [simpl in Hn; lia|].
  simpl in Hn. rewrite appendString_from_cons.
  destruct (byte_val c <? Utf8.RuneSelf) eqn:Hc.
  { apply valid_app; [by apply escape_ascii_valid|]. apply IH. lia. }
  cbv zeta. destruct (Utf8.is_bad (Utf8.DecodeRune (String c rest))) eqn:Hbad.
  { apply (valid_app (String backslash "ufffd")); [reflexivity|]. apply IH. lia. }
  assert (Hrest : Utf8.ValidString
            (Json.appendString_from 0
               (sdrop (Nat.pred (snd (Utf8.DecodeRune (String c rest)))) rest)) = true).
  { apply IH. rewrite slen_sdrop. lia. }
  destruct ((fst (Utf8.DecodeRune (String c rest)) =? 0x2028)
            || (fst (Utf8.DecodeRune (String c rest)) =? 0x2029)).
  - apply (valid_app (String backslash "u202")); [reflexivity|].
    match goal with
    | |- Utf8.ValidString (String ?h ?t) = true =>
      change (String h t) with (String h EmptyString +:+ t)
    end.
    apply valid_app; [|done]. apply valid_ascii, N.ltb_lt, hex_digit_ascii.
  - apply valid_app; [|done].
    destruct (Utf8.DecodeRune (String c rest)) as [r k] eqn:Hd. cbn [snd].
    rewrite <- (encode_decode (String c rest) r k) by done. apply encode_valid.
Qed.

Lemma appendString_valid s : Utf8.ValidString (Json.appendString s) = true.
Proof.
  unfold Json.appendString.
  change (String dquote ?t) with (String dquote EmptyString +:+ t).
  apply valid_app; [reflexivity|].
  apply valid_app; [|reflexivity]. by apply (appendString_from_valid (slen s)).
Qed.

Lemma member_line_valid m k : Utf8.ValidString (Json.member_line m k) = true.
Proof.
  unfold Json.member_line.
  repeat (apply valid_app; [first [reflexivity|apply appendString_valid]|]).
  apply appendString_valid.
Qed.

Lemma concat_valid sep (l : list string) :
  Utf8.ValidString sep = true ->
  Forall (fun s => Utf8.ValidString s = true) l ->
  Utf8.ValidString (String.concat sep l) = true.
Proof.
  intros Hsep. induction l as [|a [|b l] IH]; intros Hl; [done|..].
  - by apply Forall_cons in Hl as [Ha _].
  - apply Forall_cons in Hl as [Ha Hl]. cbn [String.concat].
    apply valid_app; [done|]. apply valid_app; [done|]. by apply IH.
Qed.

Lemma MarshalIndent_valid m : Utf8.ValidString (Json.MarshalIndent m) = true.
Proof.
  unfold Json.MarshalIndent. destruct (Json.sorted_keys m) as [|k ks]; [reflexivity|].
  apply (valid_app "{"); [reflexivity|]. apply (valid_app nl); [reflexivity|].
  apply valid_app; [|reflexivity].
  apply concat_valid; [reflexivity|].
  apply Forall_forall. intros s (k' & -> & _)%list_elem_of_fmap.
  apply member_line_valid.
Qed.

(** Whatever the catalog holds, valid UTF-8 or not, the file a successful
    [saveJSON] leaves at the path holds valid UTF-8, which [json.Unmarshal]
    accepts as an object of strings. *)
Theorem saved_file_is_valid_utf8 (w : world) (path : string)
    (data : gmap string string) :
  fst (saveJSON path data w) = None ->
  exists f, files (snd (saveJSON path data w)) !! path = Some f
            /\ Utf8.ValidString (f_data f) = true
            /\ exists m, Json.Unmarshal (f_data f) = Json.UMap m.
Proof.
  rewrite saveJSON_spec. destruct (save_error w path); [done|]. intros _. simpl.
  eexists. split; [apply lookup_insert_eq|]. simpl.
  split; [apply MarshalIndent_valid|]. rewrite Unmarshal_MarshalIndent. eauto.
Qed.

Lemma saved_file_is_valid_utf8_witness :
  exists f, files (snd (saveJSON en_path (<["a" := invalid_text]> ∅) empty_world))
              !! en_path = Some f
            /\ Utf8.ValidString (f_data f) = true
            /\ exists m, Json.Unmarshal (f_data f) = Json.UMap m.
Proof.
  apply (saved_file_is_valid_utf8 empty_world en_path (<["a" := invalid_text]> ∅)).
  vm_compute. reflexivity.
Defined.
